(** * inbox.sqlalchemy_ext.util: a shallow embedding

    The module [inbox/sqlalchemy_ext/util.py] of the sync engine bolts a few
    helpers onto the ORM: the base-36 rendering of 128-bit public ids
    ([int128_to_b36], [b36_to_bin], [generate_public_id]), the
    change-tracking containers [MutableDict] and [MutableList], and the
    windowed table scan [safer_yield_per].

    Part I embeds these functions; Part II states and proves their
    properties. *)

From Stdlib Require Import ZArith Lia String Ascii List DecimalString.
From Stdlib.Strings Require Import Byte.
From stdpp Require Import base list gmap strings sorting.
Import ListNotations.

Local Open Scope Z_scope.

(* ===================================================================== *)
(** * Part I: the model                                                   *)
(* ===================================================================== *)

(** ** Python results: a value or a raised exception *)

Module Py.

Inductive exn : Set :=
| AssertionError
| ValueError
| StructError       (* struct.error *)
| IndexError
| KeyError
| TypeError.

Inductive result (A : Type) : Type :=
| Return (a : A)
| Raise (e : exn).
Arguments Return {A} a.
Arguments Raise {A} e.

Definition bind {A B} (r : result A) (k : A -> result B) : result B :=
  match r with
  | Return a => k a
  | Raise e => Raise e
  end.

(** [x ← r; k] runs [k] on the value of [r] and lets an exception of [r]
    through. *)
#[global] Instance result_ret : MRet result := @Return.
#[global] Instance result_bind : MBind result :=
  fun A B k r => bind r k.

End Py.

Import Py.

(** ** The base-36 codec of public ids *)

Module Codec.

(** A Python 2 [str] used as binary data. *)
Abbreviation bytes := (list byte).

Definition Z_of_byte (b : byte) : Z := Z.of_N (Byte.to_N b).

Definition byte_of_Z (z : Z) : byte :=
  match Byte.of_N (Z.to_N (z mod 256)) with
  | Some b => b
  | None => x00
  end.

(** The value of a byte string read as one big-endian unsigned number. *)
Definition be_to_Z (bs : bytes) : Z :=
  fold_left (fun acc b => acc * 256 + Z_of_byte b) bs 0.

(** The [n] low bytes of [v], most significant first. *)
Fixpoint Z_to_be (n : nat) (v : Z) : bytes :=
  match n with
  | O => []
  | S n' => Z_to_be n' (v / 256) ++ [byte_of_Z (v mod 256)]
  end.

(** [bytes_of v]: the 16-byte big-endian rendering of a 128-bit value. *)
Definition bytes_of (v : Z) : bytes := Z_to_be 16 v.

(** [struct.unpack('>QQ', s)]: two big-endian unsigned 64-bit words; the
    string must be exactly 16 bytes long. *)
Definition unpack_QQ (s : bytes) : result (Z * Z) :=
  if (length s =? 16)%nat
  then Return (be_to_Z (take 8 s), be_to_Z (drop 8 s))
  else Raise StructError.

(** [struct.pack('>QQ', a, b)]: each argument must fit an unsigned 64-bit
    word. *)
Definition pack_QQ (a b : Z) : result bytes :=
  if (0 <=? a) && (a <? 2 ^ 64) && (0 <=? b) && (b <? 2 ^ 64)
  then Return (Z_to_be 8 a ++ Z_to_be 8 b)
  else Raise StructError.

(** [str.lower()] on ASCII text. *)
Definition lower_char (c : ascii) : ascii :=
  let n := nat_of_ascii c in
  if ((65 <=? n) && (n <=? 90))%nat then ascii_of_nat (n + 32) else c.

Fixpoint lower (s : string) : string :=
  match s with
  | EmptyString => EmptyString
  | String c s' => String (lower_char c) (lower s')
  end.

(** Modelled from the spec: the base-36 digits, "0-9" then the letters,
    which the helper [base36encode] (not part of the sources at hand)
    renders with.  The caller lower-cases the helper's output, so the
    letter case of the helper is immaterial; the upper-case letters are
    taken, for which that call does some work. *)
Definition alphabet : string := "0123456789ABCDEFGHIJKLMNOPQRSTUVWXYZ".

(** Modelled from the spec: the digit of [base36encode] for [i]. *)
Definition digit_char (i : Z) : ascii :=
  match String.get (Z.to_nat i) alphabet with
  | Some c => c
  | None => "0"%char
  end.

(** Modelled from the spec: the digit loop of [base36encode].  It peels
    the least significant base-36 digit off [number] and puts it in front
    of what is already rendered; [fuel] bounds the number of rounds. *)
Fixpoint base36encode_loop (fuel : nat) (number : Z) (base36 : string)
  : string :=
  match fuel with
  | O => base36
  | S fuel' =>
      if number <=? 0 then base36
      else base36encode_loop fuel' (number / 36)
             (String (digit_char (number mod 36)) base36)
  end.

(** Modelled from the spec: [inbox.util.encoding.base36encode] is not
    part of the sources at hand.  The spec has the encoder render the
    unsigned value "in base-36 using digits 0-9a-z", the zero value as
    the one digit "0", with no leading zeros.  A number [n > 0] is below
    [2 ^ (log2 n + 1)], which bounds the rounds of the loop; the codec
    only passes unsigned values. *)
Definition base36encode (number : Z) : string :=
  match base36encode_loop (S (Z.to_nat (Z.log2 number))) number "" with
  | EmptyString => "0"%string
  | s => s
  end.

(** Modelled from the spec: the value of a base-36 digit, in either
    letter case, for [base36decode]. *)
Definition digit_value (c : ascii) : option Z :=
  let n := nat_of_ascii c in
  if ((48 <=? n) && (n <=? 57))%nat then Some (Z.of_nat n - 48)
  else if ((65 <=? n) && (n <=? 90))%nat then Some (Z.of_nat n - 55)
  else if ((97 <=? n) && (n <=? 122))%nat then Some (Z.of_nat n - 87)
  else None.

(** Modelled from the spec: the digits of [base36decode], read from the
    left. *)
Fixpoint base36decode_loop (acc : Z) (s : string) : result Z :=
  match s with
  | EmptyString => Return acc
  | String c s' =>
      match digit_value c with
      | Some d => base36decode_loop (acc * 36 + d) s'
      | None => Raise ValueError
      end
  end.

(** Modelled from the spec: [inbox.util.encoding.base36decode] is not
    part of the sources at hand.  The spec has the decoder parse "a
    base-36 string (case-insensitive in the encoding alphabet)" into an
    unsigned integer and fail "if the string contains characters outside
    the base-36 alphabet, or if absent/empty input is given". *)
Definition base36decode (s : string) : result Z :=
  match s with
  | EmptyString => Raise ValueError
  | _ => base36decode_loop 0 s
  end.

Definition MAX_INT64 : Z := 0xFFFFFFFFFFFFFFFF.

(** [int128_to_b36]: [None] and the empty string are falsy and give
    [None]; any other input must be 16 bytes long. *)
Definition int128_to_b36 (int128 : option bytes) : result (option string) :=
  match int128 with
  | None => Return None
  | Some [] => Return None
  | Some s =>
      if negb (length s =? 16)%nat then Raise AssertionError
      else
        '(a, b) ← unpack_QQ s;
        let pub_id := Z.lor (Z.shiftl a 64) b in
        Return (Some (lower (base36encode pub_id)))
  end.

Definition b36_to_bin (b36_string : string) : result bytes :=
  int128 ← base36decode b36_string;
  pack_QQ (Z.land (Z.shiftr int128 64) MAX_INT64) (Z.land int128 MAX_INT64).

(** [generate_public_id]: [u] stands for [uuid.uuid4().bytes], the 16
    random bytes the call draws. *)
Definition generate_public_id (u : bytes) : result (option string) :=
  int128_to_b36 (Some u).

(** The characters a public id is made of. *)
Definition is_b36_lower (c : ascii) : bool :=
  let n := nat_of_ascii c in
  (((48 <=? n) && (n <=? 57)) || ((97 <=? n) && (n <=? 122)))%nat.

Fixpoint string_forallb (p : ascii -> bool) (s : string) : bool :=
  match s with
  | EmptyString => true
  | String c s' => p c && string_forallb p s'
  end.

End Codec.

(** ** Change-tracking containers *)

Module Mutable.

(** A method call runs on the state of its object and ends with a value
    or with an exception; the state it leaves behind is kept in both
    cases. *)
Definition call (S A : Type) : Type := S -> S * result A.

Definition call_ret {S A} (a : A) : call S A := fun s => (s, Return a).

Definition call_bind {S A B} (m : call S A) (k : A -> call S B)
  : call S B :=
  fun s =>
    match m s with
    | (s', Return a) => k a s'
    | (s', Raise e) => (s', Raise e)
    end.

#[global] Instance call_mret {S} : MRet (call S) := @call_ret S.
#[global] Instance call_mbind {S} : MBind (call S) :=
  fun A B k m => call_bind m k.

(** A container of type [C] with what the ORM was told about it:
    [changes] has one entry per call of [changed()], the content the
    container had at that moment, oldest first. *)
Record tracked (C : Type) : Type :=
  Tracked { content : C; changes : list C }.
Arguments Tracked {C} content changes.
Arguments content {C} t.
Arguments changes {C} t.

(** [Mutable.changed(self)]. *)
Definition changed {C} : call (tracked C) unit :=
  fun t => (Tracked (content t) (changes t ++ [content t]), Return tt).

(** [list.m(self, ...)] and [dict.m(self, ...)]: the method of the
    built-in base class runs on the content. *)
Definition super {C A} (m : call C A) : call (tracked C) A :=
  fun t =>
    let '(c, r) := m (content t) in (Tracked c (changes t), r).

(** The result of a step that touches no state. *)
Definition lift {S A} (r : result A) : call S A := fun s => (s, r).

(** An iterable handed to a method, as the method sees it when it takes
    the items one by one: the items it gives and, if taking the next one
    then raises, the exception.  A list or a tuple has no [failure]. *)
Record iterable (V : Type) : Type :=
  Iterable { produced : list V; failure : option exn }.
Arguments Iterable {V} produced failure.
Arguments produced {V} i.
Arguments failure {V} i.

(** *** The built-in [list] *)

Section BuiltinList.
Context {V : Type} `{EqDecision V}.

(** An index counts from the end when negative; it must then fall
    inside the list. *)
Definition item_index (l : list V) (idx : Z) : option nat :=
  let n := Z.of_nat (length l) in
  let i := if idx <? 0 then idx + n else idx in
  if (0 <=? i) && (i <? n) then Some (Z.to_nat i) else None.

(** Slice bounds are clipped to the list, the upper one to the lower
    one at least. *)
Definition slice_bounds (l : list V) (start stop : Z) : nat * nat :=
  let n := Z.of_nat (length l) in
  let i := if start <? 0 then 0 else if n <? start then n else start in
  let j := if stop <? i then i else if n <? stop then n else stop in
  (Z.to_nat i, Z.to_nat j).

Definition list_setitem (idx : Z) (value : V) : call (list V) unit :=
  fun l =>
    match item_index l idx with
    | Some i => (<[i:=value]> l, Return tt)
    | None => (l, Raise IndexError)
    end.

(** Slice assignment first makes a sequence of [values], taking all its
    items, and touches the list only then. *)
Definition list_setslice (start stop : Z) (values : iterable V)
  : call (list V) unit :=
  fun l =>
    match failure values with
    | Some e => (l, Raise e)
    | None =>
        let '(i, j) := slice_bounds l start stop in
        (take i l ++ produced values ++ drop j l, Return tt)
    end.

Definition list_delitem (idx : Z) : call (list V) unit :=
  fun l =>
    match item_index l idx with
    | Some i => (delete i l, Return tt)
    | None => (l, Raise IndexError)
    end.

Definition list_delslice (start stop : Z) : call (list V) unit :=
  fun l =>
    let '(i, j) := slice_bounds l start stop in
    (take i l ++ drop j l, Return tt).

Definition list_append (value : V) : call (list V) unit :=
  fun l => (l ++ [value], Return tt).

(** [list.insert] never fails: the position is clipped to the list. *)
Definition list_insert (idx : Z) (value : V) : call (list V) unit :=
  fun l =>
    let n := Z.of_nat (length l) in
    let w := if idx <? 0 then Z.max 0 (idx + n) else Z.min idx n in
    (take (Z.to_nat w) l ++ value :: drop (Z.to_nat w) l, Return tt).

(** [list.extend] stores the items as it takes them: the items taken
    before the iterable raises stay in the list. *)
Definition list_extend (values : iterable V) : call (list V) unit :=
  fun l =>
    (l ++ produced values,
     match failure values with
     | Some e => Raise e
     | None => Return tt
     end).

(** [list.pop()] takes the last item, [list.pop(i)] the one at [i]. *)
Definition list_pop (arg : option Z) : call (list V) V :=
  fun l =>
    match item_index l (default (-1) arg) with
    | Some i =>
        match l !! i with
        | Some v => (delete i l, Return v)
        | None => (l, Raise IndexError)
        end
    | None => (l, Raise IndexError)
    end.

Fixpoint index_of (value : V) (l : list V) : option nat :=
  match l with
  | [] => None
  | x :: l' =>
      if decide (x = value) then Some O else S <$> index_of value l'
  end.

Definition list_remove (value : V) : call (list V) unit :=
  fun l =>
    match index_of value l with
    | Some i => (delete i l, Return tt)
    | None => (l, Raise ValueError)
    end.

End BuiltinList.

(** *** The built-in [dict] (hashable keys) *)

Section BuiltinDict.
Context {K V : Type} `{Countable K}.

Definition dict_setitem (key : K) (value : V) : call (gmap K V) unit :=
  fun d => (<[key:=value]> d, Return tt).

Definition dict_delitem (key : K) : call (gmap K V) unit :=
  fun d =>
    match d !! key with
    | Some _ => (delete key d, Return tt)
    | None => (d, Raise KeyError)
    end.

(** An item of an iterable given to [dict(...)]: a sequence of a key and
    a value, a sequence of another length, or no sequence at all. *)
Inductive element : Type :=
| Pair (key : K) (value : V)
| WrongLength
| NotASequence.

(** A positional argument of [dict(...)]: a mapping, an iterable of
    items, or an object that is neither. *)
Inductive positional : Type :=
| Mapping (m : gmap K V)
| Elements (elements : iterable element)
| NotIterable.

Fixpoint dict_of_elements (elements : list element) (d : gmap K V)
  : result (gmap K V) :=
  match elements with
  | [] => Return d
  | Pair key value :: elements' =>
      dict_of_elements elements' (<[key:=value]> d)
  | WrongLength :: _ => Raise ValueError
  | NotASequence :: _ => Raise TypeError
  end.

(** The call of [dict] on positional and keyword arguments: a new
    dictionary from at most one positional argument, then the keyword
    arguments on top. *)
Definition dict_new (args : list positional) (kwargs : gmap K V)
  : result (gmap K V) :=
  match args with
  | [] => Return kwargs
  | [Mapping m] => Return (kwargs ∪ m)
  | [Elements elements] =>
      d ← dict_of_elements (produced elements) ∅;
      match failure elements with
      | Some e => Raise e
      | None => Return (kwargs ∪ d)
      end
  | [NotIterable] => Raise TypeError
  | _ :: _ :: _ => Raise TypeError
  end.

End BuiltinDict.
Arguments element K V : clear implicits.
Arguments positional K V {_ _}.

End Mutable.

Module MutableList.
Import Mutable.

Section Methods.
Context {V : Type} `{EqDecision V}.

Definition __setitem__ (idx : Z) (value : V)
  : call (tracked (list V)) unit :=
  super (list_setitem idx value);; changed.

Definition __setslice__ (start stop : Z) (values : iterable V)
  : call (tracked (list V)) unit :=
  super (list_setslice start stop values);; changed.

Definition __delitem__ (idx : Z) : call (tracked (list V)) unit :=
  super (list_delitem idx);; changed.

Definition __delslice__ (start stop : Z)
  : call (tracked (list V)) unit :=
  super (list_delslice start stop);; changed.

Definition append (value : V) : call (tracked (list V)) unit :=
  super (list_append value);; changed.

Definition insert (idx : Z) (value : V)
  : call (tracked (list V)) unit :=
  super (list_insert idx value);; changed.

Definition extend (values : iterable V) : call (tracked (list V)) unit :=
  super (list_extend values);; changed.

Definition pop (arg : option Z) : call (tracked (list V)) V :=
  value ← super (list_pop arg);
  changed;;
  mret value.

Definition remove (value : V) : call (tracked (list V)) unit :=
  super (list_remove value);; changed.

(** The mutating methods, as one type of method calls. *)
Inductive list_method : Type :=
| SetItem (idx : Z) (value : V)
| SetSlice (start stop : Z) (values : iterable V)
| DelItem (idx : Z)
| DelSlice (start stop : Z)
| Append (value : V)
| Insert (idx : Z) (value : V)
| Extend (values : iterable V)
| Pop (arg : option Z)
| Remove (value : V).

(** What a call gives back: [pop] its item, the others [None]. *)
Definition list_invoke (m : list_method) : call (tracked (list V)) (option V) :=
  match m with
  | SetItem idx value => __setitem__ idx value;; mret None
  | SetSlice start stop values =>
      __setslice__ start stop values;; mret None
  | DelItem idx => __delitem__ idx;; mret None
  | DelSlice start stop => __delslice__ start stop;; mret None
  | Append value => append value;; mret None
  | Insert idx value => insert idx value;; mret None
  | Extend values => extend values;; mret None
  | Pop arg => value ← pop arg; mret (Some value)
  | Remove value => remove value;; mret None
  end.

(** The method of [list] a call rests on. *)
Definition list_builtin (m : list_method) : call (list V) (option V) :=
  match m with
  | SetItem idx value => list_setitem idx value;; mret None
  | SetSlice start stop values =>
      list_setslice start stop values;; mret None
  | DelItem idx => list_delitem idx;; mret None
  | DelSlice start stop => list_delslice start stop;; mret None
  | Append value => list_append value;; mret None
  | Insert idx value => list_insert idx value;; mret None
  | Extend values => list_extend values;; mret None
  | Pop arg => value ← list_pop arg; mret (Some value)
  | Remove value => list_remove value;; mret None
  end.

(** The calls of [extend] whose iterable raises. *)
Definition extend_fails (m : list_method) : bool :=
  match m with
  | Extend values =>
      match failure values with Some _ => true | None => false end
  | _ => false
  end.

End Methods.
Arguments list_method V : clear implicits.

End MutableList.

Module MutableDict.
Import Mutable.

Section Methods.
Context {K V : Type} `{Countable K}.

Definition __setitem__ (key : K) (value : V)
  : call (tracked (gmap K V)) unit :=
  super (dict_setitem key value);; changed.

Definition __delitem__ (key : K) : call (tracked (gmap K V)) unit :=
  super (dict_delitem key);; changed.

(** [update]: one [self[k] = v] per item of the argument. *)
Fixpoint update_items (items : list (K * V))
  : call (tracked (gmap K V)) unit :=
  match items with
  | [] => mret tt
  | (k, v) :: items' => __setitem__ k v;; update_items items'
  end.

(** [update], on positional and keyword arguments: the dictionary made
    of the arguments is built first. *)
Definition update (args : list (positional K V)) (kwargs : gmap K V)
  : call (tracked (gmap K V)) unit :=
  other ← lift (dict_new args kwargs);
  update_items (map_to_list other).

Inductive dict_method : Type :=
| SetKey (key : K) (value : V)
| DelKey (key : K).

Definition dict_invoke (m : dict_method) : call (tracked (gmap K V)) unit :=
  match m with
  | SetKey key value => __setitem__ key value
  | DelKey key => __delitem__ key
  end.

Definition dict_builtin (m : dict_method) : call (gmap K V) unit :=
  match m with
  | SetKey key value => dict_setitem key value
  | DelKey key => dict_delitem key
  end.

End Methods.
Arguments dict_method K V : clear implicits.

End MutableDict.

(** ** The windowed scan *)

Module Scanner.

Section Scan.
Context {Record : Type}.

(** The [id] attribute of a result row. *)
Variable id : Record -> Z.

(** An attribute used for windowing, such as [Transaction.id]: an
    integer column of the rows. *)
Definition column : Type := Record -> Z.

(** [ORDER BY key], ascending; rows of equal key keep the order they
    have in the table. *)
Fixpoint insert_by (key : column) (x : Record) (l : list Record)
  : list Record :=
  match l with
  | [] => [x]
  | y :: l' =>
      if key x <=? key y then x :: l else y :: insert_by key x l'
  end.

Definition order_by (key : column) (l : list Record) : list Record :=
  foldr (insert_by key) [] l.

(** [query.filter(id_field >= cur_id).order_by(id_field).limit(count).all()]
    where [query] stands for the rows the query selects, and [count]
    is a number of rows. *)
Definition fetch (query : list Record) (id_field : column)
    (cur_id : Z) (count : nat) : list Record :=
  take count
    (order_by id_field (filter (fun r => cur_id <= id_field r) query)).

(** What a run of the generator does, in order: the queries it sends
    (with the cursor they use and the rows they give back) and the
    rows it yields. *)
Inductive event : Type :=
| Fetch (cur_id : Z) (results : list Record)
| Yield (result : Record).

Record run : Type := Run { trace : list event; returned : bool }.

(** [results[-1].id + 1], when there are results. *)
Definition advance (results : list Record) : option Z :=
  (fun r => id r + 1) <$> last results.

(** The [while True] loop from the cursor [cur_id] on; [fuel] bounds
    the number of rounds, and [returned] tells whether the generator
    reached its [return] within them.  An empty batch has no last row:
    [advance] is [None] exactly when [not results]. *)
Fixpoint scan_loop (fuel : nat) (query : list Record)
    (id_field : column) (count : nat) (cur_id : Z) : run :=
  match fuel with
  | O => Run [] false
  | S fuel' =>
      let results := fetch query id_field cur_id count in
      match advance results with
      | None => Run [Fetch cur_id results] true
      | Some next_id =>
          let rest := scan_loop fuel' query id_field count next_id in
          Run (Fetch cur_id results :: map Yield results ++ trace rest)
              (returned rest)
      end
  end.

Definition safer_yield_per (fuel : nat) (query : list Record)
    (id_field : column) (start_id : Z) (count : nat) : run :=
  scan_loop fuel query id_field count start_id.

(** Readings of a trace. *)
Fixpoint yielded (tr : list event) : list Record :=
  match tr with
  | [] => []
  | Yield r :: tr' => r :: yielded tr'
  | Fetch _ _ :: tr' => yielded tr'
  end.

Fixpoint batches (tr : list event) : list (list Record) :=
  match tr with
  | [] => []
  | Fetch _ results :: tr' => results :: batches tr'
  | Yield _ :: tr' => batches tr'
  end.

Fixpoint cursors (tr : list event) : list Z :=
  match tr with
  | [] => []
  | Fetch cur_id _ :: tr' => cur_id :: cursors tr'
  | Yield _ :: tr' => cursors tr'
  end.

Definition fetches (tr : list event) : nat := length (batches tr).

(** Rows in strictly ascending order of [key]. *)
Definition ascending (key : column) : list Record -> Prop :=
  StronglySorted (fun a b => key a < key b).

(** The scan over rows that are already filtered and in order: each
    round takes the next [count] of them. *)
Fixpoint windows (fuel : nat) (count : nat) (cur_id : Z)
    (rows : list Record) : run :=
  match fuel with
  | O => Run [] false
  | S fuel' =>
      let results := take count rows in
      match advance results with
      | None => Run [Fetch cur_id results] true
      | Some next_id =>
          let rest := windows fuel' count next_id (drop count rows) in
          Run (Fetch cur_id results :: map Yield results ++ trace rest)
              (returned rest)
      end
  end.

End Scan.

Arguments event Record : clear implicits.
Arguments run Record : clear implicits.

(** A table with a second integer column besides [id]. *)
Record row : Set := Row { row_id : Z; row_position : Z }.

(** Five rows with the [id]s 1 to 5, in the order the table stores them. *)
Definition five_rows : list row :=
  [Row 3 0; Row 1 0; Row 5 0; Row 2 0; Row 4 0].

(** Two rows windowed by position: their [id]s do not follow the
    positions. *)
Definition by_position : list row := [Row 100 1; Row 2 2].

(** Two rows whose positions run ahead of their [id]s. *)
Definition ahead : list row := [Row 1 10; Row 2 20].

End Scanner.

(** ** Rows in the order of a column *)

Module ScanOrder.

(** Rows in ascending order of [key], rows of equal key allowed. *)
Definition nondecreasing {Record : Type} (key : Record -> Z)
  : list Record -> Prop :=
  StronglySorted (fun a b => key a <= key b).

End ScanOrder.

(** ** The column type of public ids *)

Module Base36UID.
Import Codec.

(** A falsy value, [None] or the empty string, is stored as NULL. *)
Definition process_bind_param (value : option string)
  : result (option bytes) :=
  match value with
  | None => Return None
  | Some EmptyString => Return None
  | Some s => bs ← b36_to_bin s; Return (Some bs)
  end.

Definition process_result_value (value : option bytes)
  : result (option string) :=
  int128_to_b36 value.

End Base36UID.

(** ** The JSON column type *)

Module JSON.

Definition MAX_TEXT_LENGTH : Z := 65535.

Section Json.
(** Python values other than [None]; [None] is the [None] of [option]. *)
Context {V : Type}.

(** [json_util.dumps] and [json_util.loads], of the bson library. *)
Variable dumps : option V -> result string.
Variable loads : string -> result (option V).

Definition process_bind_param (value : option V) : result (option string) :=
  match value with
  | None => Return None
  | Some _ => s ← dumps value; Return (Some s)
  end.

(** The result, and what [log.error] was given: the text that did not
    decode.  Only a [ValueError] of [loads] is caught; the function then
    falls off its end and gives [None]. *)
Definition process_result_value (value : option string)
  : result (option V) * list string :=
  match value with
  | None => (Return None, [])
  | Some EmptyString => (Return None, [])
  | Some s =>
      match loads s with
      | Return v => (Return v, [])
      | Raise ValueError => (Return None, [s])
      | Raise e => (Raise e, [])
      end
  end.

Definition json_field_too_long (value : option V) : result bool :=
  s ← dumps value;
  Return (MAX_TEXT_LENGTH <? Z.of_nat (String.length s)).

End Json.

End JSON.

(** ** Pickling a [MutableDict] *)

Module MutableDictState.
Import Mutable.

Section Pickle.
Context {K V : Type} `{Countable K}.

(** [dict(self)]: a plain copy of the content. *)
Definition __getstate__ (t : tracked (gmap K V)) : gmap K V := content t.

(** [self.update(state)]. *)
Definition __setstate__ (state : gmap K V)
  : call (tracked (gmap K V)) unit :=
  MutableDict.update [Mapping state] ∅.

End Pickle.

End MutableDictState.

(** ** Runs of method calls *)

Module Session.
Import Mutable.

(** A caller that makes the calls one after the other and goes on after
    an exception: the container after the run. *)
Definition list_session {V : Type} `{EqDecision V}
    (calls : list (MutableList.list_method V)) (t : tracked (list V))
  : tracked (list V) :=
  foldl (fun t m => fst (MutableList.list_invoke m t)) t calls.

(** The calls on a [MutableDict]: item assignment, item deletion and
    [update]. *)
Inductive dict_call (K V : Type) `{Countable K} : Type :=
| Method (m : MutableDict.dict_method K V)
| Update (args : list (positional K V)) (kwargs : gmap K V).
Arguments Method {K V _ _} m.
Arguments Update {K V _ _} args kwargs.

Definition dict_run {K V : Type} `{Countable K} (c : dict_call K V)
  : call (tracked (gmap K V)) unit :=
  match c with
  | Method m => MutableDict.dict_invoke m
  | Update args kwargs => MutableDict.update args kwargs
  end.

Definition dict_session {K V : Type} `{Countable K}
    (calls : list (dict_call K V)) (t : tracked (gmap K V))
  : tracked (gmap K V) :=
  foldl (fun t c => fst (dict_run c t)) t calls.

(** [self[k] = v] on the content. *)
Definition set_item {K V : Type} `{Countable K} (m : gmap K V)
    (kv : K * V) : gmap K V :=
  <[kv.1 := kv.2]> m.

(** How many of the calls of a run return. *)
Fixpoint list_returns {V : Type} `{EqDecision V}
    (calls : list (MutableList.list_method V)) (t : tracked (list V))
  : nat :=
  match calls with
  | [] => O
  | m :: calls' =>
      match MutableList.list_invoke m t with
      | (t', Return _) => S (list_returns calls' t')
      | (t', Raise _) => list_returns calls' t'
      end
  end.

(** The content the ORM knows of: that of the latest notification, or
    the one the container started with. *)
Definition notified {C : Type} (initial : C) (t : tracked C) : C :=
  default initial (last (changes t)).

End Session.

(** ** Counting the queries of a connection *)

Module QueryCounts.

Definition MAX_SANE_QUERIES_PER_SESSION : Z := 100.

Section Counts.
(** Connections that are alive: a [WeakKeyDictionary] holds a key for
    as long as its object lives. *)
Context {Conn : Type} `{Countable Conn}.

(** The module's dictionary [query_counts], and the [query_count] of
    each warning logged, oldest first. *)
Record state : Type :=
  State { query_counts : gmap Conn Z; warnings : list Z }.

(** [query_counts.get(conn, 0)]. *)
Definition get_count (conn : Conn) (st : state) : Z :=
  default 0 (query_counts st !! conn).

Definition before_cursor_execute (conn : Conn) (st : state) : state :=
  match query_counts st !! conn with
  | None => State (<[conn := 1]> (query_counts st)) (warnings st)
  | Some n => State (<[conn := n + 1]> (query_counts st)) (warnings st)
  end.

Definition before_commit (conn : Conn) (st : state) : state :=
  if MAX_SANE_QUERIES_PER_SESSION <? get_count conn st
  then State (query_counts st) (warnings st ++ [get_count conn st])
  else st.

(** What the engine reports: a statement about to run on a connection,
    or a commit of one. *)
Inductive engine_event : Type :=
| Execute (conn : Conn)
| Commit (conn : Conn).

Definition handle (st : state) (e : engine_event) : state :=
  match e with
  | Execute conn => before_cursor_execute conn st
  | Commit conn => before_commit conn st
  end.

Definition run_events (events : list engine_event) (st : state) : state :=
  foldl handle st events.

(** The statements of a run that go to [conn]. *)
Fixpoint executes (conn : Conn) (events : list engine_event) : nat :=
  match events with
  | [] => O
  | Execute c :: events' =>
      if decide (c = conn) then S (executes conn events')
      else executes conn events'
  | Commit _ :: events' => executes conn events'
  end.

End Counts.

Arguments state Conn {_ _}.
Arguments engine_event Conn : clear implicits.

End QueryCounts.

(** ** The comment in front of a SELECT *)

Module PrefixSelects.

(** A record of [inspect.stack()], of which the code reads the file name
    (index 1) and the line number (index 2). *)
Record frame : Set := Frame { filename : string; lineno : nat }.

(** [needle in s]. *)
Fixpoint contains (needle s : string) : bool :=
  String.prefix needle s
  || match s with
     | EmptyString => false
     | String _ s' => contains needle s'
     end.

Definition is_sqlalchemy (f : frame) : bool :=
  contains "sqlalchemy" (filename f).

(** The loop over [reversed(range(len(stack)))]: [n] indices, [n - 1]
    down to 0, are still to visit.  [None] stands for the frame the
    code starts with, [(None, "unavailable", "")]. *)
Fixpoint walk (stack : list frame) (n : nat) : option frame :=
  match n with
  | O => None
  | S i =>
      match stack !! i with
      | Some f =>
          if is_sqlalchemy f
          then (if (i + 1 <? length stack)%nat then stack !! (i + 1)%nat
                else None)
          else walk stack i
      | None => walk stack i
      end
  end.

Definition call_frame (stack : list frame) : option frame :=
  walk stack (length stack).

(** ["/* {}:{} */".format(call_frame[1], call_frame[2])]. *)
Definition comment (stack : list frame) : string :=
  match call_frame stack with
  | Some f =>
      "/* " +:+ filename f +:+ ":"
        +:+ NilZero.string_of_uint (Nat.to_uint (lineno f)) +:+ " */"
  | None => "/* unavailable: */"
  end.

End PrefixSelects.

(* ===================================================================== *)
(** * Part II: properties                                                 *)
(* ===================================================================== *)

Module PyFacts.

Lemma Return_inj {A} (a b : A) : Return a = Return b -> a = b.
Proof. intros Heq. inversion Heq. reflexivity. Qed.

End PyFacts.

Module CodecFacts.
Import Codec PyFacts.

Lemma Z_of_byte_range b : 0 <= Z_of_byte b < 256.
Proof.
  unfold Z_of_byte. pose proof (Byte.to_N_bounded b). lia.
Qed.

Lemma Z_of_byte_of_Z z : Z_of_byte (byte_of_Z z) = z mod 256.
Proof.
  unfold Z_of_byte, byte_of_Z.
  pose proof (Z.mod_pos_bound z 256 ltac:(lia)) as Hr.
  destruct (Byte.of_N (Z.to_N (z mod 256))) as [b|] eqn:E.
  - apply Byte.to_of_N in E. rewrite E. lia.
  - apply Byte.of_N_None_iff in E. lia.
Qed.

Lemma byte_of_Z_of_byte b : byte_of_Z (Z_of_byte b) = b.
Proof.
  unfold byte_of_Z. pose proof (Z_of_byte_range b) as Hr.
  rewrite Z.mod_small by lia. unfold Z_of_byte.
  rewrite N2Z.id, Byte.of_to_N. reflexivity.
Qed.

Lemma length_Z_to_be n v : length (Z_to_be n v) = n.
Proof.
  revert v. induction n as [|n IH]; intros v; simpl; [reflexivity|].
  rewrite length_app, IH. simpl. lia.
Qed.

Lemma be_to_Z_snoc bs b : be_to_Z (bs ++ [b]) = be_to_Z bs * 256 + Z_of_byte b.
Proof. unfold be_to_Z. rewrite fold_left_app. reflexivity. Qed.

Lemma be_to_Z_range bs : 0 <= be_to_Z bs < 256 ^ Z.of_nat (length bs).
Proof.
  induction bs as [|b bs IH] using rev_ind.
  - simpl. unfold be_to_Z. simpl. lia.
  - rewrite be_to_Z_snoc, length_app. simpl length.
    replace (Z.of_nat (length bs + 1)) with (Z.succ (Z.of_nat (length bs)))
      by lia.
    rewrite Z.pow_succ_r by lia.
    pose proof (Z_of_byte_range b). lia.
Qed.

Lemma be_to_Z_to_be n v : be_to_Z (Z_to_be n v) = v mod 256 ^ Z.of_nat n.
Proof.
  revert v. induction n as [|n IH]; intros v.
  - simpl. unfold be_to_Z. simpl. rewrite Z.mod_1_r. reflexivity.
  - simpl Z_to_be. rewrite be_to_Z_snoc, IH, Z_of_byte_of_Z.
    rewrite Nat2Z.inj_succ, Z.pow_succ_r by lia.
    rewrite (Z.rem_mul_r v 256 (256 ^ Z.of_nat n)), Z.mod_mod by lia. lia.
Qed.

Lemma Z_to_be_to_Z bs : Z_to_be (length bs) (be_to_Z bs) = bs.
Proof.
  induction bs as [|b bs IH] using rev_ind; [reflexivity|].
  rewrite length_app. simpl length. rewrite Nat.add_1_r. simpl Z_to_be.
  rewrite be_to_Z_snoc. pose proof (Z_of_byte_range b).
  rewrite Z.div_add_l, Z.div_small, Z.add_0_r by lia.
  rewrite Z.add_comm, Z.mod_add, Z.mod_small by lia.
  rewrite IH, byte_of_Z_of_byte. reflexivity.
Qed.

Lemma Z_to_be_app n m v :
  Z_to_be (n + m) v = Z_to_be n (v / 256 ^ Z.of_nat m) ++ Z_to_be m v.
Proof.
  revert v. induction m as [|m IH]; intros v.
  - rewrite Nat.add_0_r. simpl. rewrite Z.div_1_r, app_nil_r. reflexivity.
  - rewrite Nat.add_succ_r. simpl Z_to_be. rewrite IH, app_assoc.
    rewrite Nat2Z.inj_succ, Z.pow_succ_r by lia.
    rewrite Z.div_div by lia. reflexivity.
Qed.

Lemma Z_to_be_mod n v : Z_to_be n (v mod 256 ^ Z.of_nat n) = Z_to_be n v.
Proof.
  rewrite <- (be_to_Z_to_be n v).
  rewrite <- (length_Z_to_be n v) at 1. apply Z_to_be_to_Z.
Qed.

(** *** Words *)

Lemma lor_shiftl_64 a b :
  0 <= b < 2 ^ 64 -> Z.lor (Z.shiftl a 64) b = a * 2 ^ 64 + b.
Proof.
  intros Hb. rewrite <- Z.shiftl_mul_pow2 by lia.
  symmetry. apply Z.add_nocarry_lor. apply Z.bits_inj'. intros n Hn.
  rewrite Z.land_spec, Z.bits_0.
  destruct (Z.lt_ge_cases n 64) as [Hlt|Hge].
  - rewrite Z.shiftl_spec_low by lia. reflexivity.
  - destruct (Z.eq_dec b 0) as [->|Hnz].
    + rewrite Z.bits_0. apply andb_false_r.
    + rewrite (Z.bits_above_log2 b n); [apply andb_false_r | lia |].
      assert (Z.log2 b < 64) by (apply Z.log2_lt_pow2; lia). lia.
Qed.

Lemma unpack_QQ_bytes_of v :
  unpack_QQ (bytes_of v)
  = Return ((v / 2 ^ 64) mod 2 ^ 64, v mod 2 ^ 64).
Proof.
  unfold unpack_QQ, bytes_of. rewrite length_Z_to_be. simpl Nat.eqb. cbv iota.
  change 16%nat with (8 + 8)%nat. rewrite Z_to_be_app.
  rewrite take_app_length', drop_app_length'
    by (symmetry; apply length_Z_to_be).
  rewrite !be_to_Z_to_be. reflexivity.
Qed.

Lemma pack_QQ_words v :
  pack_QQ (Z.land (Z.shiftr v 64) MAX_INT64) (Z.land v MAX_INT64)
  = Return (bytes_of (v mod 2 ^ 128)).
Proof.
  change MAX_INT64 with (Z.ones 64).
  rewrite !Z.land_ones, Z.shiftr_div_pow2 by lia.
  unfold pack_QQ.
  pose proof (Z.mod_pos_bound (v / 2 ^ 64) (2 ^ 64) ltac:(lia)) as Ha.
  pose proof (Z.mod_pos_bound v (2 ^ 64) ltac:(lia)) as Hb.
  destruct (Z.leb_spec 0 ((v / 2 ^ 64) mod 2 ^ 64)); [|lia].
  destruct (Z.ltb_spec ((v / 2 ^ 64) mod 2 ^ 64) (2 ^ 64)); [|lia].
  destruct (Z.leb_spec 0 (v mod 2 ^ 64)); [|lia].
  destruct (Z.ltb_spec (v mod 2 ^ 64) (2 ^ 64)); [|lia].
  simpl andb. cbv iota. f_equal.
  unfold bytes_of.
  pose proof (Z_to_be_mod 16 v) as H16.
  pose proof (Z_to_be_mod 8 (v / 2 ^ 64)) as Hhi.
  pose proof (Z_to_be_mod 8 v) as Hlo.
  pose proof (Z_to_be_app 8 8 v) as Happ.
  change (256 ^ Z.of_nat 16) with (2 ^ 128) in H16.
  change (256 ^ Z.of_nat 8) with (2 ^ 64) in Hhi, Hlo, Happ.
  change (8 + 8)%nat with 16%nat in Happ.
  rewrite H16, Hhi, Hlo, Happ. reflexivity.
Qed.

(** *** Text *)

Lemma append_cons c (s1 s2 : string) :
  (String c s1 ++ s2)%string = String c (s1 ++ s2).
Proof. reflexivity. Qed.

Lemma append_assoc (s1 s2 s3 : string) :
  ((s1 ++ s2) ++ s3 = s1 ++ (s2 ++ s3))%string.
Proof.
  induction s1 as [|c s1 IH]; [reflexivity|].
  rewrite !append_cons, IH. reflexivity.
Qed.

Lemma length_append (s1 s2 : string) :
  String.length (s1 ++ s2) = (String.length s1 + String.length s2)%nat.
Proof.
  induction s1 as [|c s1 IH]; [reflexivity|].
  rewrite append_cons. simpl. rewrite IH. reflexivity.
Qed.

Lemma length_lower (s : string) : String.length (lower s) = String.length s.
Proof. induction s as [|c s IH]; simpl; [reflexivity | now rewrite IH]. Qed.

Lemma lower_append (s1 s2 : string) :
  lower (s1 ++ s2) = (lower s1 ++ lower s2)%string.
Proof.
  induction s1 as [|c s1 IH]; [reflexivity|].
  rewrite append_cons. simpl. rewrite IH. reflexivity.
Qed.

Lemma string_forallb_append p (s1 s2 : string) :
  string_forallb p (s1 ++ s2) = string_forallb p s1 && string_forallb p s2.
Proof.
  induction s1 as [|c s1 IH]; [reflexivity|].
  rewrite append_cons. simpl. rewrite IH. apply andb_assoc.
Qed.

Lemma base36decode_loop_append acc (s1 s2 : string) :
  base36decode_loop acc (s1 ++ s2)
  = (acc' ← base36decode_loop acc s1; base36decode_loop acc' s2).
Proof.
  revert acc. induction s1 as [|c s1 IH]; intros acc; [reflexivity|].
  rewrite append_cons. simpl.
  destruct (digit_value c); [apply IH | reflexivity].
Qed.

(** *** Digits *)

Lemma digit_cases (P : Z -> Prop) :
  (forall k, (k < 36)%nat -> P (Z.of_nat k)) ->
  forall d, 0 <= d < 36 -> P d.
Proof.
  intros HP d Hd. rewrite <- (Z2Nat.id d) by lia. apply HP. lia.
Qed.

Lemma digit_value_char d :
  0 <= d < 36 -> digit_value (lower_char (digit_char d)) = Some d.
Proof.
  revert d. apply digit_cases. intros k Hk.
  do 36 (destruct k as [|k]; [vm_compute; reflexivity|]). lia.
Qed.

Lemma is_b36_lower_char d :
  0 <= d < 36 -> is_b36_lower (lower_char (digit_char d)) = true.
Proof.
  revert d. apply digit_cases. intros k Hk.
  do 36 (destruct k as [|k]; [vm_compute; reflexivity|]). lia.
Qed.

(** *** The digit loop *)

Lemma base36encode_loop_acc fuel number acc :
  base36encode_loop fuel number acc
  = (base36encode_loop fuel number "" ++ acc)%string.
Proof.
  revert number acc. induction fuel as [|fuel IH]; intros number acc; simpl.
  - reflexivity.
  - destruct (number <=? 0); [reflexivity|].
    rewrite IH. rewrite (IH _ (String _ "")).
    rewrite append_assoc. reflexivity.
Qed.

Lemma base36encode_loop_step fuel number :
  0 < number ->
  base36encode_loop (S fuel) number ""
  = (base36encode_loop fuel (number / 36) ""
     ++ String (digit_char (number mod 36)) "")%string.
Proof.
  intros Hn. simpl.
  destruct (Z.leb_spec number 0); [lia|].
  apply base36encode_loop_acc.
Qed.

Lemma base36encode_loop_zero fuel number :
  number <= 0 -> base36encode_loop fuel number "" = ""%string.
Proof.
  intros Hn. destruct fuel; simpl; [reflexivity|].
  destruct (Z.leb_spec number 0); [reflexivity | lia].
Qed.

(** Enough fuel: the rendering of [number] reads back as [number]. *)
Lemma base36decode_loop_encode fuel number :
  0 <= number < 2 ^ Z.of_nat fuel ->
  base36decode_loop 0 (lower (base36encode_loop fuel number ""))
  = Return number.
Proof.
  revert number. induction fuel as [|fuel IH]; intros number Hn.
  - simpl in *. f_equal. lia.
  - destruct (Z.eq_dec number 0) as [->|Hnz].
    + rewrite base36encode_loop_zero by lia. reflexivity.
    + rewrite base36encode_loop_step by lia.
      rewrite lower_append, base36decode_loop_append.
      rewrite Nat2Z.inj_succ, Z.pow_succ_r in Hn by lia.
      rewrite IH.
      2:{ split; [apply Z.div_pos; lia|].
          apply Z.div_lt_upper_bound; lia. }
      simpl.
      pose proof (Z.mod_pos_bound number 36 ltac:(lia)) as Hd.
      rewrite digit_value_char by lia.
      f_equal. pose proof (Z.div_mod number 36 ltac:(lia)). lia.
Qed.

Lemma fuel_enough number :
  0 <= number -> number < 2 ^ Z.of_nat (S (Z.to_nat (Z.log2 number))).
Proof.
  intros Hn. pose proof (Z.log2_nonneg number).
  rewrite Nat2Z.inj_succ, Z2Nat.id by lia.
  destruct (Z.eq_dec number 0) as [->|Hnz]; [reflexivity|].
  apply Z.log2_spec. lia.
Qed.

Lemma base36decode_encode number :
  0 <= number ->
  base36decode (lower (base36encode number)) = Return number.
Proof.
  intros Hn. unfold base36encode.
  pose proof (base36decode_loop_encode _ number
                (conj Hn (fuel_enough number Hn))) as Hloop.
  destruct (base36encode_loop _ number "") as [|c s] eqn:E.
  - simpl in Hloop. injection Hloop as <-. reflexivity.
  - exact Hloop.
Qed.

Lemma length_base36encode_loop fuel number (k : nat) :
  0 <= number < 36 ^ Z.of_nat k ->
  (String.length (base36encode_loop fuel number "") <= k)%nat.
Proof.
  revert number k. induction fuel as [|fuel IH]; intros number k Hn.
  - simpl. lia.
  - destruct (Z.eq_dec number 0) as [->|Hnz].
    + rewrite base36encode_loop_zero by lia. simpl. lia.
    + rewrite base36encode_loop_step by lia. rewrite length_append. simpl.
      destruct k as [|k]; [simpl in Hn; lia|].
      rewrite Nat2Z.inj_succ, Z.pow_succ_r in Hn by lia.
      specialize (IH (number / 36) k).
      assert (0 <= number / 36 < 36 ^ Z.of_nat k).
      { split; [apply Z.div_pos; lia|].
        apply Z.div_lt_upper_bound; lia. }
      specialize (IH ltac:(assumption)). lia.
Qed.

Lemma chars_base36encode_loop fuel number :
  string_forallb is_b36_lower (lower (base36encode_loop fuel number ""))
  = true.
Proof.
  revert number. induction fuel as [|fuel IH]; intros number.
  - reflexivity.
  - destruct (Z.le_gt_cases number 0) as [Hle|Hgt].
    + rewrite base36encode_loop_zero by lia. reflexivity.
    + rewrite base36encode_loop_step by lia.
      rewrite lower_append, string_forallb_append, IH. simpl.
      rewrite is_b36_lower_char; [reflexivity|].
      apply Z.mod_pos_bound. lia.
Qed.

(** A rendering has at most [k] digits when the value is below [36 ^ k],
    and is made of digits and lower-case letters. *)
Lemma base36encode_shape number (k : nat) :
  (0 < k)%nat -> 0 <= number < 36 ^ Z.of_nat k ->
  (String.length (lower (base36encode number)) <= k)%nat
  /\ string_forallb is_b36_lower (lower (base36encode number)) = true.
Proof.
  intros Hk Hn. unfold base36encode.
  pose proof (length_base36encode_loop
                (S (Z.to_nat (Z.log2 number))) number k Hn) as Hlen.
  pose proof (chars_base36encode_loop
                (S (Z.to_nat (Z.log2 number))) number) as Hch.
  destruct (base36encode_loop _ number "") as [|c s] eqn:E.
  - split; [simpl; lia | reflexivity].
  - rewrite length_lower. split; assumption.
Qed.

End CodecFacts.

Module CodecTheorems.
Import Codec PyFacts CodecFacts.

Example encode_255 :
  int128_to_b36 (Some (bytes_of 255)) = Return (Some "73"%string).
Proof. vm_compute. reflexivity. Qed.

Example encode_max :
  int128_to_b36 (Some (bytes_of (2 ^ 128 - 1)))
  = Return (Some "f5lxx1zz5pnorynqglhzmsp33"%string).
Proof. vm_compute. reflexivity. Qed.

Example decode_mixed_case : b36_to_bin "Zz" = Return (bytes_of 1295).
Proof. vm_compute. reflexivity. Qed.

Example decode_bad_char : b36_to_bin "a-b" = Raise ValueError.
Proof. vm_compute. reflexivity. Qed.

Example decode_empty : b36_to_bin "" = Raise ValueError.
Proof. reflexivity. Qed.

(** On a 16-byte string the encoder renders the 128-bit number made of
    its two words. *)
Lemma int128_to_b36_16 (s : bytes) :
  length s = 16%nat ->
  int128_to_b36 (Some s)
  = Return (Some (lower (base36encode
      (Z.lor (Z.shiftl (be_to_Z (take 8 s)) 64) (be_to_Z (drop 8 s)))))).
Proof.
  intros Hlen. destruct s as [|b s]; [discriminate|].
  unfold int128_to_b36, unpack_QQ. rewrite Hlen. reflexivity.
Qed.

Lemma words_value (s : bytes) :
  length s = 16%nat ->
  Z.lor (Z.shiftl (be_to_Z (take 8 s)) 64) (be_to_Z (drop 8 s))
  = be_to_Z s
  /\ 0 <= be_to_Z s < 2 ^ 128.
Proof.
  intros Hlen.
  pose proof (be_to_Z_range s) as Hs. rewrite Hlen in Hs.
  pose proof (be_to_Z_range (drop 8 s)) as Hlo.
  rewrite length_drop, Hlen in Hlo.
  change (256 ^ Z.of_nat 16) with (2 ^ 128) in Hs.
  change (256 ^ Z.of_nat (16 - 8)) with (2 ^ 64) in Hlo.
  split; [|exact Hs].
  rewrite lor_shiftl_64 by exact Hlo.
  rewrite <- (take_drop 8 s) at 3.
  generalize (take 8 s) as hi. intros hi.
  assert (Hd : length (drop 8 s) = 8%nat) by (rewrite length_drop; lia).
  revert Hd. generalize (drop 8 s) as lo. intros lo Hd.
  unfold be_to_Z. rewrite fold_left_app.
  fold (be_to_Z hi). generalize (be_to_Z hi) as a. intros a.
  do 9 (destruct lo as [|? lo]; try discriminate). simpl. lia.
Qed.

Lemma int128_to_b36_bytes_of v :
  0 <= v < 2 ^ 128 ->
  int128_to_b36 (Some (bytes_of v))
  = Return (Some (lower (base36encode v))).
Proof.
  intros Hv.
  assert (Hlen : length (bytes_of v) = 16%nat) by apply length_Z_to_be.
  rewrite int128_to_b36_16 by exact Hlen.
  destruct (words_value _ Hlen) as [-> _].
  unfold bytes_of. rewrite be_to_Z_to_be.
  change (256 ^ Z.of_nat 16) with (2 ^ 128).
  rewrite Z.mod_small by exact Hv. reflexivity.
Qed.

Lemma b36_to_bin_value s v :
  base36decode s = Return v ->
  b36_to_bin s = Return (bytes_of (v mod 2 ^ 128)).
Proof.
  intros Hs. unfold b36_to_bin. rewrite Hs. apply pack_QQ_words.
Qed.

Lemma bytes_of_inj v w :
  0 <= v < 2 ^ 128 -> 0 <= w < 2 ^ 128 -> bytes_of v = bytes_of w -> v = w.
Proof.
  intros Hv Hw Heq. apply (f_equal be_to_Z) in Heq.
  unfold bytes_of in Heq. rewrite !be_to_Z_to_be in Heq.
  change (256 ^ Z.of_nat 16) with (2 ^ 128) in Heq.
  rewrite !Z.mod_small in Heq by assumption. exact Heq.
Qed.

(** C1: for every 128-bit value [v], decoding the encoding of its 16
    bytes gives these bytes back, and two values with the same encoding
    are equal: the encoding is one-to-one on the 128-bit values. *)
Theorem b36_roundtrip (v w : Z) :
  0 <= v < 2 ^ 128 -> 0 <= w < 2 ^ 128 ->
  (exists s, int128_to_b36 (Some (bytes_of v)) = Return (Some s)
             /\ b36_to_bin s = Return (bytes_of v))
  /\ (int128_to_b36 (Some (bytes_of v)) = int128_to_b36 (Some (bytes_of w))
      -> v = w).
Proof.
  intros Hv Hw.
  assert (Hdec : forall x, 0 <= x < 2 ^ 128 ->
            b36_to_bin (lower (base36encode x)) = Return (bytes_of x)).
  { intros x Hx.
    rewrite (b36_to_bin_value _ x) by (apply base36decode_encode; lia).
    rewrite Z.mod_small by exact Hx. reflexivity. }
  split.
  - exists (lower (base36encode v)). split.
    + apply int128_to_b36_bytes_of, Hv.
    + apply Hdec, Hv.
  - rewrite !int128_to_b36_bytes_of by assumption. intros Heq.
    injection Heq as Heq.
    apply bytes_of_inj; try assumption.
    pose proof (Hdec v Hv) as Ev. pose proof (Hdec w Hw) as Ew.
    rewrite Heq, Ew in Ev. apply Return_inj in Ev. symmetry. exact Ev.
Qed.

Lemma b36_roundtrip_witness :
  (exists s, int128_to_b36 (Some (bytes_of 1295)) = Return (Some s)
             /\ b36_to_bin s = Return (bytes_of 1295))
  /\ (int128_to_b36 (Some (bytes_of 1295))
      = int128_to_b36 (Some (bytes_of (2 ^ 128 - 1)))
      -> 1295 = 2 ^ 128 - 1).
Proof. apply (b36_roundtrip 1295 (2 ^ 128 - 1)); lia. Defined.

(** C4: the encoder gives [None] for an absent and for an empty input,
    without raising, and fails its assertion on every non-empty input
    that is not 16 bytes long. *)
Theorem int128_to_b36_guard (s : bytes) :
  int128_to_b36 None = Return None
  /\ int128_to_b36 (Some []) = Return None
  /\ (s <> [] -> length s <> 16%nat ->
      int128_to_b36 (Some s) = Raise AssertionError).
Proof.
  split; [reflexivity|]. split; [reflexivity|].
  intros Hne Hlen. destruct s as [|b s]; [congruence|].
  unfold int128_to_b36.
  destruct (Nat.eqb_spec (length (b :: s)) 16); [contradiction|].
  reflexivity.
Qed.

Lemma int128_to_b36_guard_witness :
  int128_to_b36 (Some (replicate 15 x00)) = Raise AssertionError
  /\ int128_to_b36 (Some (replicate 17 xff)) = Raise AssertionError.
Proof.
  split.
  - apply (int128_to_b36_guard (replicate 15 x00)); [discriminate | simpl; lia].
  - apply (int128_to_b36_guard (replicate 17 xff)); [discriminate | simpl; lia].
Defined.

(** C7: sixteen zero bytes encode to the string "0", and "0" decodes to
    sixteen zero bytes. *)
Theorem zero_public_id :
  int128_to_b36 (Some (replicate 16 x00)) = Return (Some "0"%string)
  /\ b36_to_bin "0" = Return (replicate 16 x00).
Proof. split; vm_compute; reflexivity. Qed.

(** C8: whatever 16 bytes are drawn, the generated public id has at
    most 25 characters, all of them digits or lower-case letters. *)
Theorem generate_public_id_shape (u : bytes) :
  length u = 16%nat ->
  exists s, generate_public_id u = Return (Some s)
            /\ (String.length s <= 25)%nat
            /\ string_forallb is_b36_lower s = true.
Proof.
  intros Hlen. unfold generate_public_id.
  rewrite int128_to_b36_16 by exact Hlen.
  destruct (words_value u Hlen) as [-> Hrange].
  eexists. split; [reflexivity|].
  apply base36encode_shape; [lia|].
  assert (2 ^ 128 <= 36 ^ Z.of_nat 25) by (vm_compute; discriminate).
  lia.
Qed.

Lemma generate_public_id_shape_witness :
  exists s, generate_public_id (bytes_of (2 ^ 128 - 1)) = Return (Some s)
            /\ (String.length s <= 25)%nat
            /\ string_forallb is_b36_lower s = true.
Proof.
  apply (generate_public_id_shape (bytes_of (2 ^ 128 - 1))). reflexivity.
Defined.

(** C9: a string whose base-36 value [v] is [2 ^ 128] or more is decoded
    without an exception, to the 16 bytes of [v] modulo [2 ^ 128]: the
    masks keep the two low 64-bit words and drop what lies above. *)
Theorem b36_to_bin_wraps (s : string) (v : Z) :
  base36decode s = Return v -> 2 ^ 128 <= v ->
  b36_to_bin s
  = pack_QQ (Z.land (Z.shiftr v 64) MAX_INT64) (Z.land v MAX_INT64)
  /\ b36_to_bin s = Return (bytes_of (v mod 2 ^ 128)).
Proof.
  intros Hs _. split.
  - unfold b36_to_bin. rewrite Hs. reflexivity.
  - apply b36_to_bin_value, Hs.
Qed.

Lemma b36_to_bin_wraps_witness :
  b36_to_bin "f5lxx1zz5pnorynqglhzmsp35"
  = pack_QQ (Z.land (Z.shiftr (2 ^ 128 + 1) 64) MAX_INT64)
            (Z.land (2 ^ 128 + 1) MAX_INT64)
  /\ b36_to_bin "f5lxx1zz5pnorynqglhzmsp35"
     = Return (bytes_of ((2 ^ 128 + 1) mod 2 ^ 128)).
Proof.
  apply (b36_to_bin_wraps "f5lxx1zz5pnorynqglhzmsp35" (2 ^ 128 + 1)).
  - vm_compute. reflexivity.
  - vm_compute. discriminate.
Defined.

End CodecTheorems.

Module MutableFacts.
Import Mutable.

(** A tracked method is "the built-in method, then [changed()]". *)
Section Wrapper.
Context {C A : Type}.

Lemma super_then_changed (m : call C unit) (t : tracked C) :
  (super m;; changed) t
  = match m (content t) with
    | (c, Return _) => (Tracked c (changes t ++ [c]), Return tt)
    | (c, Raise e) => (Tracked c (changes t), Raise e)
    end.
Proof.
  unfold mbind, call_mbind, call_bind, super, changed.
  destruct (m (content t)) as [c [[]|e]]; reflexivity.
Qed.

Lemma super_changed_value (m : call C A) (t : tracked C) :
  (value ← super m; changed;; mret value) t
  = match m (content t) with
    | (c, Return a) => (Tracked c (changes t ++ [c]), Return a)
    | (c, Raise e) => (Tracked c (changes t), Raise e)
    end.
Proof.
  unfold mbind, call_mbind, call_bind, super, changed, mret, call_mret,
    call_ret.
  destruct (m (content t)) as [c [a|e]]; reflexivity.
Qed.

Lemma tracked_eta (t : tracked C) : Tracked (content t) (changes t) = t.
Proof. destruct t; reflexivity. Qed.

End Wrapper.

(** The built-in methods fail before they touch the container, but for
    [extend], which keeps what it took from an iterable that raises. *)
Section Atomic.
Context {V : Type} `{EqDecision V}.

Lemma list_builtin_atomic (m : MutableList.list_method V) (l : list V) c e :
  MutableList.list_builtin m l = (c, Raise e) ->
  MutableList.extend_fails m = false -> c = l.
Proof.
  destruct m; unfold MutableList.list_builtin, MutableList.extend_fails,
    mbind, call_mbind, call_bind,
    list_setitem, list_setslice, list_delitem, list_delslice, list_append,
    list_insert, list_extend, list_pop, list_remove, mret, call_mret,
    call_ret; intros Hm Hok; repeat case_match; congruence.
Qed.

Lemma list_builtin_extend (values : iterable V) (l : list V) :
  fst (MutableList.list_builtin (MutableList.Extend values) l)
  = l ++ produced values.
Proof.
  unfold MutableList.list_builtin, list_extend, mbind, call_mbind, call_bind.
  destruct (failure values); reflexivity.
Qed.
End Atomic.

Section AtomicDict.
Context {K V : Type} `{Countable K}.

Lemma dict_builtin_atomic (m : MutableDict.dict_method K V) (d : gmap K V) c e :
  MutableDict.dict_builtin m d = (c, Raise e) -> c = d.
Proof.
  destruct m; unfold MutableDict.dict_builtin, dict_setitem, dict_delitem;
    intros Hm; [congruence|].
  destruct (d !! key); congruence.
Qed.
End AtomicDict.

Lemma list_invoke_eq {V} `{EqDecision V} (m : MutableList.list_method V)
    (t : tracked (list V)) :
  MutableList.list_invoke m t
  = match MutableList.list_builtin m (content t) with
    | (c, Return x) => (Tracked c (changes t ++ [c]), Return x)
    | (c, Raise e) => (Tracked c (changes t), Raise e)
    end.
Proof.
  destruct m; unfold MutableList.list_invoke, MutableList.list_builtin,
    MutableList.__setitem__, MutableList.__setslice__,
    MutableList.__delitem__, MutableList.__delslice__, MutableList.append,
    MutableList.insert, MutableList.extend, MutableList.pop,
    MutableList.remove;
  unfold mbind at 1; unfold call_mbind at 1; unfold call_bind at 1;
  rewrite ?super_then_changed, ?super_changed_value;
  unfold mbind, call_mbind, call_bind, mret, call_mret, call_ret;
  match goal with
  | |- context [?f (content t)] =>
      destruct (f (content t)) as [c [x|e]]
  end; try reflexivity.
  all: destruct x; reflexivity.
Qed.

Lemma dict_invoke_eq {K V} `{Countable K} (m : MutableDict.dict_method K V)
    (t : tracked (gmap K V)) :
  MutableDict.dict_invoke m t
  = match MutableDict.dict_builtin m (content t) with
    | (c, Return x) => (Tracked c (changes t ++ [c]), Return x)
    | (c, Raise e) => (Tracked c (changes t), Raise e)
    end.
Proof.
  destruct m; unfold MutableDict.dict_invoke, MutableDict.dict_builtin,
    MutableDict.__setitem__, MutableDict.__delitem__;
  rewrite super_then_changed;
  match goal with
  | |- context [?f (content t)] =>
      destruct (f (content t)) as [c [[]|e]]
  end; reflexivity.
Qed.

Example pop_empty_list :
  MutableList.pop None (Tracked ([] : list Z) [])
  = (Tracked [] [], Raise IndexError).
Proof. reflexivity. Qed.

Example pop_last :
  MutableList.pop None (Tracked [1; 2; 3] [])
  = (Tracked [1; 2] [[1; 2]], Return 3).
Proof. reflexivity. Qed.

Example remove_absent_value :
  MutableList.remove 9 (Tracked [1; 2; 3] [])
  = (Tracked [1; 2; 3] [], Raise ValueError).
Proof. reflexivity. Qed.

Example setitem_out_of_range :
  MutableList.__setitem__ 3 9 (Tracked [1; 2; 3] [])
  = (Tracked [1; 2; 3] [], Raise IndexError).
Proof. reflexivity. Qed.

Example setslice_clipped :
  MutableList.__setslice__ (-1) 1 (Iterable [7; 8] None)
    (Tracked [1; 2; 3] [])
  = (Tracked [7; 8; 2; 3] [[7; 8; 2; 3]], Return tt).
Proof. reflexivity. Qed.

Example setslice_failing_iterable :
  MutableList.__setslice__ 0 1 (Iterable [7; 8] (Some ValueError))
    (Tracked [1; 2; 3] [])
  = (Tracked [1; 2; 3] [], Raise ValueError).
Proof. reflexivity. Qed.

Example extend_failing_iterable :
  MutableList.extend (Iterable [2; 3] (Some ValueError)) (Tracked [1] [])
  = (Tracked [1; 2; 3] [], Raise ValueError).
Proof. reflexivity. Qed.

Example delete_missing_key :
  MutableDict.__delitem__ "b"%string
    (Tracked ({[ "a"%string := 1 ]} : gmap string Z) [])
  = (Tracked {[ "a"%string := 1 ]} [], Raise KeyError).
Proof. reflexivity. Qed.

(** Setting the items never raises, and notifies once per item. *)
Lemma update_items_notifies {K V} `{Countable K} (items : list (K * V))
    (t : tracked (gmap K V)) :
  exists t',
    MutableDict.update_items items t = (t', Return tt)
    /\ length (changes t') = (length (changes t) + length items)%nat.
Proof.
  revert t. induction items as [|[k v] items IH]; intros t.
  - exists t. split; [reflexivity | simpl; lia].
  - simpl. unfold mbind at 1, call_mbind at 1, call_bind at 1.
    unfold MutableDict.__setitem__. rewrite super_then_changed.
    unfold dict_setitem.
    destruct (IH (Tracked (<[k:=v]> (content t))
                    (changes t ++ [<[k:=v]> (content t)])))
      as (t' & Hrun & Hlen).
    exists t'. split; [exact Hrun|].
    rewrite Hlen. simpl. rewrite length_app. simpl. lia.
Qed.

(** C10 as stated fails: a call that raises may leave the list changed.
    An [extend] whose iterable raises after two items keeps them. *)
Lemma failed_extend_changes_list :
  ~ (forall (m : MutableList.list_method Z) (t t' : tracked (list Z)) e,
        MutableList.list_invoke m t = (t', Raise e) ->
        content t' = content t).
Proof.
  intros Hclaim.
  specialize (Hclaim (MutableList.Extend (Iterable [2; 3] (Some ValueError)))
                (Tracked [1] []) (Tracked [1; 2; 3] []) ValueError eq_refl).
  discriminate.
Qed.

(** C10, as the code has it: a call of a mutating method of
    [MutableList] or [MutableDict] whose built-in method raises adds no
    notification and passes the exception on; it leaves the container as
    it was, but for an [extend] whose iterable raises, which leaves the
    list with the items taken before.  A call whose built-in method
    returns leaves the mutated container and adds one notification, made
    on the container as mutated. *)
Theorem changed_only_after_mutation :
  (forall (V : Type) (eqV : EqDecision V) (m : MutableList.list_method V)
          (t : tracked (list V)),
      match MutableList.list_builtin m (content t) with
      | (c, Raise e) =>
          MutableList.list_invoke m t = (Tracked c (changes t), Raise e)
          /\ (MutableList.extend_fails m = false -> c = content t)
          /\ (forall values,
                m = MutableList.Extend values ->
                c = content t ++ produced values)
      | (c, Return x) =>
          MutableList.list_invoke m t = (Tracked c (changes t ++ [c]), Return x)
      end)
  /\ (forall (K V : Type) (eqK : EqDecision K) (cntK : Countable K)
             (m : MutableDict.dict_method K V) (t : tracked (gmap K V)),
      match MutableDict.dict_builtin m (content t) with
      | (c, Raise e) =>
          c = content t /\ MutableDict.dict_invoke m t = (t, Raise e)
      | (c, Return x) =>
          MutableDict.dict_invoke m t = (Tracked c (changes t ++ [c]), Return x)
      end).
Proof.
  split.
  - intros V eqV m t. rewrite list_invoke_eq.
    destruct (MutableList.list_builtin m (content t)) as [c [x|e]] eqn:E;
      [reflexivity|].
    split; [reflexivity|]. split.
    + intros Hok. eapply list_builtin_atomic; eassumption.
    + intros values ->.
      rewrite <- (list_builtin_extend values (content t)), E. reflexivity.
  - intros K V eqK cntK m t. rewrite dict_invoke_eq.
    destruct (MutableDict.dict_builtin m (content t)) as [c [x|e]] eqn:E;
      [reflexivity|].
    apply dict_builtin_atomic in E. subst c.
    rewrite tracked_eta. split; reflexivity.
Qed.

Lemma changed_only_after_mutation_witness :
  (MutableList.list_invoke (MutableList.Pop None) (Tracked ([] : list Z) [])
   = (Tracked [] [], Raise IndexError)
   /\ ([] : list Z) = content (Tracked [] []))
  /\ (MutableList.list_invoke
        (MutableList.Extend (Iterable [2; 3] (Some ValueError)))
        (Tracked [1] [])
      = (Tracked [1; 2; 3] [], Raise ValueError)
      /\ [1; 2; 3]
         = content (Tracked [1] [])
           ++ produced (Iterable [2; 3] (Some ValueError))).
Proof.
  split.
  - destruct (proj1 changed_only_after_mutation Z _
                (MutableList.Pop None) (Tracked [] []))
      as (Hcall & Hsame & _).
    split; [exact Hcall | apply Hsame; reflexivity].
  - destruct (proj1 changed_only_after_mutation Z _
                (MutableList.Extend (Iterable [2; 3] (Some ValueError)))
                (Tracked [1] []))
      as (Hcall & _ & Hkept).
    split; [exact Hcall | apply (Hkept _ eq_refl)].
Defined.

End MutableFacts.

Module ScannerFacts.
Import Scanner.

Section Filter.
Context {A : Type} (P : A -> Prop) `{!forall x, Decision (P x)}.

Lemma Forall_filter (Q : A -> Prop) l :
  Forall Q l -> Forall Q (filter P l).
Proof.
  rewrite !Forall_forall. intros HQ x Hx.
  apply list_elem_of_filter in Hx as [_ Hx]. auto.
Qed.

Lemma filter_none l : Forall (fun x => ~ P x) l -> filter P l = [].
Proof.
  induction 1 as [|x l Hx _ IH]; [reflexivity|].
  rewrite filter_cons. destruct (decide (P x)); [contradiction | exact IH].
Qed.

Lemma filter_all l : Forall P l -> filter P l = l.
Proof.
  induction 1 as [|x l Hx _ IH]; [reflexivity|].
  rewrite filter_cons. destruct (decide (P x)); [|contradiction].
  rewrite IH. reflexivity.
Qed.

End Filter.

Section Order.
Context {Record : Type}.
Variable key : @column Record.

Lemma insert_by_perm x l : insert_by key x l ≡ₚ x :: l.
Proof.
  induction l as [|y l IH]; simpl; [reflexivity|].
  destruct (key x <=? key y); [reflexivity|].
  rewrite IH. apply Permutation_swap.
Qed.

Lemma order_by_cons x l :
  order_by key (x :: l) = insert_by key x (order_by key l).
Proof. reflexivity. Qed.

Lemma order_by_perm l : order_by key l ≡ₚ l.
Proof.
  induction l as [|x l IH]; [reflexivity|].
  rewrite order_by_cons, insert_by_perm, IH. reflexivity.
Qed.

Lemma insert_by_head x l :
  Forall (fun y => key x <= key y) l -> insert_by key x l = x :: l.
Proof.
  destruct l as [|y l]; [reflexivity|]. intros Hall.
  apply Forall_cons_1 in Hall as [Hy _]. simpl.
  destruct (Z.leb_spec (key x) (key y)); [reflexivity | lia].
Qed.

Lemma insert_by_ascending x l :
  ascending key l -> key x ∉ key <$> l -> ascending key (insert_by key x l).
Proof.
  unfold ascending. induction l as [|y l IH]; intros Hs Hx; simpl.
  - repeat constructor.
  - apply StronglySorted_cons in Hs as [Hy Hs].
    rewrite fmap_cons, not_elem_of_cons in Hx. destruct Hx as [Hne Hx].
    destruct (Z.leb_spec (key x) (key y)) as [Hle|Hgt].
    + apply StronglySorted_cons. split.
      * constructor; [lia|].
        eapply Forall_impl; [exact Hy|]. simpl. intros z Hz. lia.
      * apply StronglySorted_cons. split; assumption.
    + apply StronglySorted_cons. split; [|apply IH; assumption].
      rewrite insert_by_perm. constructor; [lia | exact Hy].
Qed.

Lemma order_by_ascending l :
  NoDup (key <$> l) -> ascending key (order_by key l).
Proof.
  induction l as [|x l IH]; intros Hnd.
  - constructor.
  - rewrite fmap_cons in Hnd. apply NoDup_cons in Hnd as [Hx Hnd].
    rewrite order_by_cons.
    apply insert_by_ascending; [apply IH, Hnd|].
    rewrite order_by_perm. exact Hx.
Qed.

Lemma ascending_filter (P : Record -> Prop) `{!forall r, Decision (P r)} l :
  ascending key l -> ascending key (filter P l).
Proof.
  unfold ascending. induction l as [|y l IH]; intros Hs; [constructor|].
  apply StronglySorted_cons in Hs as [Hy Hs].
  rewrite filter_cons. destruct (decide (P y)); [|apply IH, Hs].
  apply StronglySorted_cons. split; [|apply IH, Hs].
  apply Forall_filter. eapply Forall_impl; [exact Hy|]. auto.
Qed.

Lemma filter_insert_by (P : Record -> Prop) `{!forall r, Decision (P r)}
    x l :
  ascending key l ->
  filter P (insert_by key x l)
  = if decide (P x) then insert_by key x (filter P l) else filter P l.
Proof.
  unfold ascending. induction l as [|y l IH]; intros Hs.
  - simpl. rewrite filter_cons, filter_nil.
    destruct (decide (P x)); reflexivity.
  - apply StronglySorted_cons in Hs as [Hy Hs]. simpl.
    destruct (Z.leb_spec (key x) (key y)) as [Hle|Hgt].
    + rewrite filter_cons. destruct (decide (P x)); [|reflexivity].
      symmetry. apply insert_by_head. apply Forall_filter.
      constructor; [exact Hle|].
      eapply Forall_impl; [exact Hy|]. simpl. intros z Hz. lia.
    + rewrite filter_cons, (filter_cons _ y l), IH by exact Hs.
      destruct (decide (P y)), (decide (P x)); try reflexivity.
      simpl. destruct (Z.leb_spec (key x) (key y)); [lia | reflexivity].
Qed.

Lemma order_by_filter (P : Record -> Prop) `{!forall r, Decision (P r)} l :
  NoDup (key <$> l) ->
  order_by key (filter P l) = filter P (order_by key l).
Proof.
  induction l as [|x l IH]; intros Hnd; [reflexivity|].
  rewrite fmap_cons in Hnd. apply NoDup_cons in Hnd as [Hx Hnd].
  rewrite (order_by_cons x l).
  rewrite filter_insert_by by (apply order_by_ascending, Hnd).
  rewrite filter_cons, <- IH by exact Hnd.
  destruct (decide (P x)); reflexivity.
Qed.

(** The rows after a window are those above the window's last row. *)
Lemma drop_window (n : nat) l r :
  ascending key l -> last (take n l) = Some r ->
  filter (fun x => key r + 1 <= key x) l = drop n l.
Proof.
  intros Hs Hlast. unfold ascending in Hs.
  rewrite <- (take_drop n l) in Hs |- * at 1.
  apply last_Some in Hlast as [pre Hpre]. rewrite Hpre in Hs |- *.
  rewrite filter_app.
  apply StronglySorted_app in Hs as (Hcross & Hleft & _).
  apply StronglySorted_app in Hleft as (Hbelow & _ & _).
  rewrite filter_none, filter_all; [reflexivity| |].
  - apply Forall_forall. intros x Hx.
    assert (key r < key x); [|lia].
    apply Hcross; [|exact Hx]. apply elem_of_app. right. constructor.
  - apply Forall_app. split.
    + apply Forall_forall. intros x Hx.
      assert (key x < key r); [|lia].
      apply Hbelow; [exact Hx | constructor].
    + repeat constructor. lia.
Qed.

End Order.

Section Loop.
Context {Record : Type}.
Variable id : Record -> Z.

Lemma advance_None results : advance id results = None <-> results = [].
Proof.
  unfold advance. rewrite fmap_None. apply last_None.
Qed.

Lemma advance_Some results next_id :
  advance id results = Some next_id
  <-> exists r, last results = Some r /\ next_id = id r + 1.
Proof.
  unfold advance. rewrite fmap_Some. reflexivity.
Qed.

(** *** Readings of a trace *)

Lemma yielded_app (tr1 tr2 : list (event Record)) :
  yielded (tr1 ++ tr2) = yielded tr1 ++ yielded tr2.
Proof.
  induction tr1 as [|[c b|r] tr1 IH]; simpl; [reflexivity|exact IH|].
  rewrite IH. reflexivity.
Qed.

Lemma yielded_Yield (rs : list Record) : yielded (map Yield rs) = rs.
Proof. induction rs as [|r rs IH]; simpl; [reflexivity | now rewrite IH]. Qed.

Lemma batches_app (tr1 tr2 : list (event Record)) :
  batches (tr1 ++ tr2) = batches tr1 ++ batches tr2.
Proof.
  induction tr1 as [|[c b|r] tr1 IH]; simpl; [reflexivity| |exact IH].
  rewrite IH. reflexivity.
Qed.

Lemma batches_Yield (rs : list Record) : batches (map Yield rs) = [].
Proof. induction rs as [|r rs IH]; simpl; [reflexivity | exact IH]. Qed.

Lemma cursors_app (tr1 tr2 : list (event Record)) :
  cursors (tr1 ++ tr2) = cursors tr1 ++ cursors tr2.
Proof.
  induction tr1 as [|[c b|r] tr1 IH]; simpl; [reflexivity| |exact IH].
  rewrite IH. reflexivity.
Qed.

Lemma cursors_Yield (rs : list Record) : cursors (map Yield rs) = [].
Proof. induction rs as [|r rs IH]; simpl; [reflexivity | exact IH]. Qed.

(** *** The loop *)

(** Once the generator has returned, more fuel changes nothing. *)
Lemma scan_loop_more_fuel query id_field count fuel fuel' cur_id :
  returned (scan_loop id fuel query id_field count cur_id) = true ->
  (fuel <= fuel')%nat ->
  scan_loop id fuel' query id_field count cur_id
  = scan_loop id fuel query id_field count cur_id.
Proof.
  revert fuel' cur_id.
  induction fuel as [|fuel IH]; intros fuel' cur_id Hret Hle;
    [discriminate|].
  destruct fuel' as [|fuel']; [lia|].
  simpl in *.
  destruct (advance id (fetch query id_field cur_id count)) as [next|];
    [|reflexivity].
  simpl in Hret. rewrite (IH fuel' next) by (assumption || lia).
  reflexivity.
Qed.

(** No query gives back more than [count] rows, whatever the column. *)
Lemma scan_loop_batches query id_field count fuel cur_id :
  Forall (fun b => (length b <= count)%nat)
    (batches (trace (scan_loop id fuel query id_field count cur_id))).
Proof.
  revert cur_id. induction fuel as [|fuel IH]; intros cur_id; simpl;
    [constructor|].
  assert (Hlen : (length (fetch query id_field cur_id count)
                  <= count)%nat)
    by (unfold fetch; rewrite length_take; lia).
  destruct (advance id (fetch query id_field cur_id count)) as [next|];
    simpl.
  - constructor; [exact Hlen|].
    rewrite batches_app, batches_Yield. apply IH.
  - repeat constructor. exact Hlen.
Qed.

(** When the column is the rows' [id] and no two rows share it, the
    loop walks the ordered rows window by window. *)
Lemma scan_loop_windows query id_field count :
  NoDup (id_field <$> query) ->
  (forall r, r ∈ query -> id r = id_field r) ->
  forall fuel cur_id,
    scan_loop id fuel query id_field count cur_id
    = windows id fuel count cur_id
        (order_by id_field
           (filter (fun r => cur_id <= id_field r) query)).
Proof.
  intros Hnd Hid. induction fuel as [|fuel IH]; intros cur_id;
    [reflexivity|].
  simpl. unfold fetch.
  set (rows := order_by id_field
                 (filter (fun r => cur_id <= id_field r) query)).
  destruct (advance id (take count rows)) as [next|] eqn:Hadv;
    [|reflexivity].
  rewrite IH.
  enough (Hnext : order_by id_field
                    (filter (fun r => next <= id_field r) query)
                  = drop count rows) by (rewrite Hnext; reflexivity).
  apply advance_Some in Hadv as (r & Hlast & ->).
  assert (Hr : r ∈ rows).
  { apply last_Some_elem_of in Hlast.
    apply (subseteq_take count rows), Hlast. }
  assert (Hrows : rows
            = filter (fun r => cur_id <= id_field r)
                (order_by id_field query))
    by (apply order_by_filter, Hnd).
  assert (Hasc : ascending id_field rows).
  { rewrite Hrows. apply ascending_filter, order_by_ascending, Hnd. }
  assert (Hrq : r ∈ query /\ cur_id <= id_field r).
  { unfold rows in Hr. rewrite order_by_perm in Hr.
    apply list_elem_of_filter in Hr. tauto. }
  destruct Hrq as [Hrq Hcur]. rewrite (Hid r Hrq).
  rewrite <- (drop_window id_field count rows r Hasc Hlast).
  rewrite order_by_filter by exact Hnd.
  rewrite Hrows. rewrite list_filter_filter_l; [reflexivity|].
  intros x Hx. lia.
Qed.

(** *** Windows over rows in order *)

Lemma windows_complete count fuel cur_id rows :
  (0 < count)%nat -> (length rows < fuel)%nat ->
  returned (windows id fuel count cur_id rows) = true
  /\ yielded (trace (windows id fuel count cur_id rows)) = rows.
Proof.
  intros Hcount. revert cur_id rows.
  induction fuel as [|fuel IH]; intros cur_id rows Hfuel; [lia|].
  simpl.
  destruct (advance id (take count rows)) as [next|] eqn:Hadv; simpl.
  - assert (Hne : rows <> []).
    { intros ->. rewrite take_nil in Hadv. discriminate. }
    destruct (IH next (drop count rows)) as [Hret Hy].
    { rewrite length_drop. destruct rows; [congruence|]. simpl in *. lia. }
    split; [exact Hret|].
    rewrite yielded_app, yielded_Yield, Hy. apply take_drop.
  - apply advance_None in Hadv.
    destruct rows as [|r rows]; [split; reflexivity|].
    destruct count; [lia | discriminate].
Qed.

Lemma windows_cursors count fuel cur_id rows :
  ascending id rows -> Forall (fun r => cur_id <= id r) rows ->
  Forall (Z.le cur_id) (cursors (trace (windows id fuel count cur_id rows)))
  /\ StronglySorted Z.le
       (cursors (trace (windows id fuel count cur_id rows))).
Proof.
  revert cur_id rows.
  induction fuel as [|fuel IH]; intros cur_id rows Hasc Hlow; simpl.
  - split; constructor.
  - destruct (advance id (take count rows)) as [next|] eqn:Hadv; simpl.
    + rewrite cursors_app, cursors_Yield. simpl.
      apply advance_Some in Hadv as (r & Hlast & ->).
      assert (Hr : r ∈ rows).
      { apply last_Some_elem_of in Hlast.
        apply (subseteq_take count rows), Hlast. }
      assert (Hcur : cur_id <= id r).
      { rewrite Forall_forall in Hlow. apply Hlow, Hr. }
      destruct (IH (id r + 1) (drop count rows)) as [Hge Hsorted].
      { unfold ascending in *. rewrite <- (take_drop count rows) in Hasc.
        apply StronglySorted_app_1_r in Hasc. exact Hasc. }
      { rewrite <- (drop_window id count rows r Hasc Hlast).
        apply Forall_forall. intros x Hx.
        apply list_elem_of_filter in Hx as [Hx _]. exact Hx. }
      assert (Hall : Forall (Z.le cur_id)
                (cursors (trace (windows id fuel count (id r + 1)
                                   (drop count rows))))).
      { eapply Forall_impl; [exact Hge|]. simpl. intros z Hz. lia. }
      split.
      * constructor; [lia | exact Hall].
      * apply StronglySorted_cons. split; assumption.
    + split; repeat constructor. lia.
Qed.

End Loop.

End ScannerFacts.

Module ScannerTheorems.
Import Scanner ScannerFacts.

Section General.
Context {Record : Type}.
Variable id : Record -> Z.

Lemma ascending_ext (key key' : @column Record) l :
  (forall r, r ∈ l -> key' r = key r) ->
  ascending key l -> ascending key' l.
Proof.
  unfold ascending. intros Hext Hs.
  induction Hs as [|x l Hs IH Hx]; [constructor|].
  constructor.
  - apply IH. intros r Hr. apply Hext. now right.
  - rewrite Forall_forall in Hx |- *. intros y Hy.
    rewrite (Hext x), (Hext y) by (now left || now right).
    apply Hx, Hy.
Qed.

(** C5: when no row has its key at [start_id] or above, the generator
    sends one query, yields nothing and returns. *)
Theorem scan_of_nothing (query : list Record) (id_field : column)
    (start_id : Z) (count fuel : nat) :
  (forall r, r ∈ query -> id_field r < start_id) ->
  trace (safer_yield_per id (S fuel) query id_field start_id count)
  = [Fetch start_id []]
  /\ returned (safer_yield_per id (S fuel) query id_field start_id count)
     = true
  /\ yielded
       (trace (safer_yield_per id (S fuel) query id_field start_id count))
     = []
  /\ fetches
       (trace (safer_yield_per id (S fuel) query id_field start_id count))
     = 1%nat.
Proof.
  intros Hbelow.
  assert (Hfetch : fetch query id_field start_id count = []).
  { unfold fetch. rewrite filter_none; [apply take_nil|].
    apply Forall_forall. intros r Hr. specialize (Hbelow r Hr). lia. }
  unfold safer_yield_per. simpl. rewrite Hfetch. simpl.
  repeat split; reflexivity.
Qed.

(** X1: the scan by [id].  With a positive window, keys that no two rows
    share and the rows' [id] as the column, the generator returns; it
    yields the rows at or above [start_id], each once and in
    ascending order; no query gives back more than [count] rows; and
    the cursor never decreases. *)
Theorem scan_by_id (query : list Record) (id_field : column)
    (start_id : Z) (count fuel : nat) :
  (0 < count)%nat ->
  NoDup (id_field <$> query) ->
  (forall r, r ∈ query -> id r = id_field r) ->
  (length query < fuel)%nat ->
  returned (safer_yield_per id fuel query id_field start_id count) = true
  /\ yielded
       (trace (safer_yield_per id fuel query id_field start_id count))
     ≡ₚ filter (fun r => start_id <= id_field r) query
  /\ ascending id_field
       (yielded
          (trace (safer_yield_per id fuel query id_field start_id count)))
  /\ Forall (fun b => (length b <= count)%nat)
       (batches
          (trace (safer_yield_per id fuel query id_field start_id count)))
  /\ StronglySorted Z.le
       (cursors
          (trace (safer_yield_per id fuel query id_field start_id count))).
Proof.
  intros Hcount Hnd Hid Hfuel. unfold safer_yield_per.
  split; [|split; [|split; [|split]]].
  4: apply scan_loop_batches.
  all: rewrite (scan_loop_windows id query id_field count Hnd Hid).
  all: set (rows := order_by id_field
                      (filter (fun r => start_id <= id_field r) query)).
  all: assert (Hlen : (length rows < fuel)%nat)
         by (unfold rows; rewrite order_by_perm;
             pose proof (length_filter
                           (fun r => start_id <= id_field r) query); lia).
  all: assert (Hasc : ascending id_field rows)
         by (unfold rows; rewrite order_by_filter by exact Hnd;
             apply ascending_filter, order_by_ascending, Hnd).
  all: assert (Hin : forall r, r ∈ rows ->
                       r ∈ query /\ start_id <= id_field r)
         by (intros r Hr; unfold rows in Hr; rewrite order_by_perm in Hr;
             apply list_elem_of_filter in Hr; tauto).
  - apply (windows_complete id count fuel start_id rows Hcount Hlen).
  - rewrite (proj2 (windows_complete id count fuel start_id rows
                      Hcount Hlen)).
    apply order_by_perm.
  - rewrite (proj2 (windows_complete id count fuel start_id rows
                      Hcount Hlen)).
    exact Hasc.
  - apply windows_cursors.
    + apply (ascending_ext id_field id); [|exact Hasc].
      intros r Hr. apply Hid, Hin, Hr.
    + apply Forall_forall. intros r Hr.
      destruct (Hin r Hr) as [Hq Hge]. rewrite (Hid r Hq). exact Hge.
Qed.

(** C2, as the code has it: over rows whose [id]s, the windowing
    column, are 1 to 5, a scan from 1 with windows of 2 yields the
    rows in the order 1 to 5 and sends four queries: the windows
    [1,2], [3,4] and [5], and a last one from cursor 6 that finds
    nothing and ends the scan. *)
Theorem scan_five_rows (query : list Record) (id_field : column)
    (fuel : nat) :
  id_field <$> query ≡ₚ [1; 2; 3; 4; 5] ->
  (forall r, r ∈ query -> id r = id_field r) ->
  (4 <= fuel)%nat ->
  returned (safer_yield_per id fuel query id_field 1 2) = true
  /\ id_field <$> yielded (trace (safer_yield_per id fuel query id_field 1 2))
     = [1; 2; 3; 4; 5]
  /\ fmap (M:=list) id_field <$>
       batches (trace (safer_yield_per id fuel query id_field 1 2))
     = [[1; 2]; [3; 4]; [5]; []]
  /\ cursors (trace (safer_yield_per id fuel query id_field 1 2))
     = [1; 3; 5; 6]
  /\ fetches (trace (safer_yield_per id fuel query id_field 1 2)) = 4%nat.
Proof.
  intros Hperm Hid Hfuel.
  assert (Hnd : NoDup (id_field <$> query)).
  { rewrite Hperm. compute_done. }
  unfold safer_yield_per.
  rewrite (scan_loop_windows id query id_field 2 Hnd Hid).
  assert (Hall : filter (fun r => 1 <= id_field r) query = query).
  { apply filter_all, Forall_forall. intros r Hr.
    assert (Hk : id_field r ∈ [1; 2; 3; 4; 5])
      by (rewrite <- Hperm; apply list_elem_of_fmap_2, Hr).
    repeat (apply elem_of_cons in Hk as [->|Hk]; [lia|]).
    apply elem_of_nil in Hk. contradiction. }
  rewrite Hall.
  assert (Hrows_id : forall r, r ∈ order_by id_field query ->
                       id r = id_field r)
    by (intros r Hr; rewrite order_by_perm in Hr; auto).
  assert (Hkeys : id_field <$> order_by id_field query = [1; 2; 3; 4; 5]).
  { apply (StronglySorted_unique Z.le).
    - eapply StronglySorted_fmap; [|apply order_by_ascending, Hnd].
      simpl. intros x y Hxy. lia.
    - repeat constructor; lia.
    - rewrite order_by_perm. exact Hperm. }
  destruct (order_by id_field query)
    as [|a [|b [|c [|d [|e [|f rows]]]]]]; try discriminate.
  injection Hkeys as Ha Hb Hc Hd He.
  assert (Ib : id b = 2)
    by (rewrite Hrows_id, Hb by repeat constructor; reflexivity).
  assert (Id : id d = 4)
    by (rewrite Hrows_id, Hd by repeat constructor; reflexivity).
  assert (Ie : id e = 5)
    by (rewrite Hrows_id, He by repeat constructor; reflexivity).
  do 4 (destruct fuel as [|fuel]; [lia|]).
  unfold fetches. simpl. rewrite Ha, Hb, Hc, Hd, He, Ib, Id, Ie.
  repeat split; reflexivity.
Qed.

End General.

(** *** The scan of concrete tables *)

(** C2 as stated fails: the scan of five rows by windows of 2 never ends
    with three queries sent. *)
Lemma scan_five_rows_not_three_fetches :
  ~ exists fuel,
      returned (safer_yield_per row_id fuel five_rows row_id 1 2) = true
      /\ row_id <$> yielded
           (trace (safer_yield_per row_id fuel five_rows row_id 1 2))
         = [1; 2; 3; 4; 5]
      /\ fetches (trace (safer_yield_per row_id fuel five_rows row_id 1 2))
         = 3%nat.
Proof.
  intros (fuel & Hret & _ & Hfetches). unfold safer_yield_per in *.
  do 4 (destruct fuel as [|fuel]; [vm_compute in Hret; discriminate|]).
  rewrite (scan_loop_more_fuel row_id five_rows row_id 2 4) in Hfetches;
    [| reflexivity | lia].
  vm_compute in Hfetches. discriminate.
Qed.

Lemma scan_five_rows_witness :
  returned (safer_yield_per row_id 4 five_rows row_id 1 2) = true
  /\ row_id <$> yielded (trace (safer_yield_per row_id 4 five_rows row_id 1 2))
     = [1; 2; 3; 4; 5]
  /\ fmap (M:=list) row_id <$>
       batches (trace (safer_yield_per row_id 4 five_rows row_id 1 2))
     = [[1; 2]; [3; 4]; [5]; []]
  /\ cursors (trace (safer_yield_per row_id 4 five_rows row_id 1 2))
     = [1; 3; 5; 6]
  /\ fetches (trace (safer_yield_per row_id 4 five_rows row_id 1 2)) = 4%nat.
Proof.
  apply (scan_five_rows row_id five_rows row_id 4).
  - compute_done.
  - reflexivity.
  - lia.
Defined.

Lemma scan_by_id_witness :
  returned (safer_yield_per row_id 6 five_rows row_id 3 2) = true
  /\ yielded (trace (safer_yield_per row_id 6 five_rows row_id 3 2))
     ≡ₚ filter (fun r => 3 <= row_id r) five_rows
  /\ ascending row_id
       (yielded (trace (safer_yield_per row_id 6 five_rows row_id 3 2)))
  /\ Forall (fun b => (length b <= 2)%nat)
       (batches (trace (safer_yield_per row_id 6 five_rows row_id 3 2)))
  /\ StronglySorted Z.le
       (cursors (trace (safer_yield_per row_id 6 five_rows row_id 3 2))).
Proof.
  apply (scan_by_id row_id five_rows row_id 3 2 6).
  - lia.
  - compute_done.
  - reflexivity.
  - simpl. lia.
Defined.

Lemma scan_of_nothing_witness :
  trace (safer_yield_per row_id 1 five_rows row_id 6 2) = [Fetch 6 []]
  /\ returned (safer_yield_per row_id 1 five_rows row_id 6 2) = true
  /\ yielded (trace (safer_yield_per row_id 1 five_rows row_id 6 2)) = []
  /\ fetches (trace (safer_yield_per row_id 1 five_rows row_id 6 2)) = 1%nat.
Proof.
  apply (scan_of_nothing row_id five_rows row_id 6 2 0).
  intros r Hr. unfold five_rows in Hr.
  repeat (apply elem_of_cons in Hr as [->|Hr]; [simpl; lia|]).
  apply elem_of_nil in Hr. contradiction.
Defined.

(** C3 at this table: after the batch whose last row has position 1,
    the cursor is that row's [id] plus one, 101, and not its position
    plus one; the next query finds nothing and the row at position 2 is
    never fetched. *)
Theorem cursor_follows_id (fuel : nat) :
  safer_yield_per row_id (S (S fuel)) by_position row_position 1 1
  = Run [Fetch 1 [Row 100 1]; Yield (Row 100 1); Fetch 101 []] true
  /\ advance row_id [Row 100 1] = Some 101
  /\ row_position (Row 100 1) + 1 = 2.
Proof. repeat split; reflexivity. Qed.

Lemma scan_ahead_loops (fuel : nat) :
  scan_loop row_id fuel ahead row_position 1 2
  = Run (concat (replicate fuel [Fetch 2 [Row 1 10]; Yield (Row 1 10)]))
        false.
Proof.
  induction fuel as [|fuel IH]; [reflexivity|].
  change (scan_loop row_id (S fuel) ahead row_position 1 2)
    with (let rest := scan_loop row_id fuel ahead row_position 1 2 in
          Run (Fetch 2 [Row 1 10] :: Yield (Row 1 10) :: trace rest)
              (returned rest)).
  rewrite IH. reflexivity.
Qed.

(** C6 at this table, scanned by position from 10 on with windows of
    one row: however long the generator runs, it does not return; it
    yields the row at position 10 in every round and never the row at
    position 20; and its cursor falls from 10 to 2. *)
Theorem scan_by_position_loops (fuel : nat) :
  returned (safer_yield_per row_id (S fuel) ahead row_position 10 1) = false
  /\ yielded (trace (safer_yield_per row_id (S fuel) ahead row_position 10 1))
     = replicate (S fuel) (Row 1 10)
  /\ cursors (trace (safer_yield_per row_id (S fuel) ahead row_position 10 1))
     = 10 :: replicate fuel 2.
Proof.
  unfold safer_yield_per.
  change (scan_loop row_id (S fuel) ahead row_position 1 10)
    with (let rest := scan_loop row_id fuel ahead row_position 1 2 in
          Run (Fetch 10 [Row 1 10] :: Yield (Row 1 10) :: trace rest)
              (returned rest)).
  rewrite scan_ahead_loops. simpl.
  split; [reflexivity|].
  induction fuel as [|fuel IH]; [split; reflexivity|].
  destruct IH as [IHy IHc]. simpl in *.
  split; congruence.
Qed.

End ScannerTheorems.

Module Base36UIDFacts.
Import Codec PyFacts CodecFacts CodecTheorems Base36UID.

Lemma lower_nonempty (s : string) : s <> ""%string -> lower s <> ""%string.
Proof. destruct s; [congruence | discriminate]. Qed.

Lemma base36encode_nonempty (number : Z) : base36encode number <> ""%string.
Proof.
  unfold base36encode.
  destruct (base36encode_loop _ number ""); discriminate.
Qed.

Lemma process_bind_param_nonempty (s : string) :
  s <> ""%string ->
  process_bind_param (Some s) = (bs ← b36_to_bin s; Return (Some bs)).
Proof. destruct s; [congruence | reflexivity]. Qed.

(** What is read back for a string that decodes to [v]: the rendering
    of [v] modulo [2 ^ 128]. *)
Lemma bind_then_result (s : string) (v : Z) :
  s <> ""%string -> base36decode s = Return v ->
  (bs ← process_bind_param (Some s); process_result_value bs)
  = Return (Some (lower (base36encode (v mod 2 ^ 128)))).
Proof.
  intros Hne Hdec. rewrite process_bind_param_nonempty by exact Hne.
  rewrite (b36_to_bin_value s v Hdec).
  apply int128_to_b36_bytes_of. apply Z.mod_pos_bound. lia.
Qed.

(** X2: a 16-byte key read from the column and written back is stored
    as the same 16 bytes, and NULL stays NULL. *)
Theorem stored_key_roundtrip (key : bytes) :
  length key = 16%nat ->
  (s ← process_result_value (Some key); process_bind_param s)
  = Return (Some key)
  /\ (s ← process_result_value None; process_bind_param s) = Return None.
Proof.
  intros Hlen. split; [|reflexivity].
  unfold process_result_value. rewrite int128_to_b36_16 by exact Hlen.
  destruct (words_value key Hlen) as [-> Hrange].
  change (process_bind_param (Some (lower (base36encode (be_to_Z key))))
          = Return (Some key)).
  rewrite process_bind_param_nonempty
    by apply lower_nonempty, base36encode_nonempty.
  rewrite (b36_to_bin_value _ (be_to_Z key))
    by (apply base36decode_encode; lia).
  rewrite Z.mod_small by exact Hrange.
  unfold bytes_of. rewrite <- Hlen, Z_to_be_to_Z. reflexivity.
Qed.

Lemma stored_key_roundtrip_witness :
  (s ← process_result_value (Some (bytes_of 46655)); process_bind_param s)
  = Return (Some (bytes_of 46655))
  /\ (s ← process_result_value None; process_bind_param s) = Return None.
Proof. apply (stored_key_roundtrip (bytes_of 46655)). reflexivity. Defined.

(** X3: a public id made by [int128_to_b36] from 16 bytes is not empty,
    is stored as these 16 bytes, and is read back as the same string. *)
Theorem public_id_roundtrip (key : bytes) (public_id : string) :
  length key = 16%nat ->
  int128_to_b36 (Some key) = Return (Some public_id) ->
  public_id <> ""%string
  /\ process_bind_param (Some public_id) = Return (Some key)
  /\ (bs ← process_bind_param (Some public_id); process_result_value bs)
     = Return (Some public_id).
Proof.
  intros Hlen Hid. rewrite int128_to_b36_16 in Hid by exact Hlen.
  destruct (words_value key Hlen) as [Hval Hrange]. rewrite Hval in Hid.
  apply Return_inj in Hid. injection Hid as <-.
  assert (Hne : lower (base36encode (be_to_Z key)) <> ""%string)
    by apply lower_nonempty, base36encode_nonempty.
  assert (Hdec : base36decode (lower (base36encode (be_to_Z key)))
                 = Return (be_to_Z key))
    by (apply base36decode_encode; lia).
  split; [exact Hne|]. split.
  - rewrite process_bind_param_nonempty by exact Hne.
    rewrite (b36_to_bin_value _ _ Hdec), Z.mod_small by exact Hrange.
    unfold bytes_of. rewrite <- Hlen, Z_to_be_to_Z. reflexivity.
  - rewrite (bind_then_result _ _ Hne Hdec), Z.mod_small by exact Hrange.
    reflexivity.
Qed.

Lemma public_id_roundtrip_witness :
  "zzz"%string <> ""%string
  /\ process_bind_param (Some "zzz"%string) = Return (Some (bytes_of 46655))
  /\ (bs ← process_bind_param (Some "zzz"%string); process_result_value bs)
     = Return (Some "zzz"%string).
Proof.
  apply (public_id_roundtrip (bytes_of 46655) "zzz").
  - reflexivity.
  - vm_compute. reflexivity.
Defined.

(** X4: any non-empty text that decodes to a value [v] is read back in
    one form, the lower-case rendering of [v] modulo [2 ^ 128] without
    leading zeros: letter case and leading zeros are not kept. *)
Theorem public_id_normalised (s : string) (v : Z) :
  s <> ""%string -> base36decode s = Return v ->
  (bs ← process_bind_param (Some s); process_result_value bs)
  = Return (Some (lower (base36encode (v mod 2 ^ 128))))
  /\ (process_bind_param (Some s)
      = process_bind_param (Some (lower (base36encode (v mod 2 ^ 128))))).
Proof.
  intros Hne Hdec. split; [apply bind_then_result; assumption|].
  assert (Hr : 0 <= v mod 2 ^ 128 < 2 ^ 128) by (apply Z.mod_pos_bound; lia).
  rewrite !process_bind_param_nonempty
    by (try exact Hne; apply lower_nonempty, base36encode_nonempty).
  rewrite (b36_to_bin_value s v Hdec).
  rewrite (b36_to_bin_value _ (v mod 2 ^ 128))
    by (apply base36decode_encode; lia).
  rewrite Z.mod_mod by lia. reflexivity.
Qed.

Lemma public_id_normalised_witness :
  (bs ← process_bind_param (Some "00Zz"%string); process_result_value bs)
  = Return (Some (lower (base36encode (1295 mod 2 ^ 128))))
  /\ (process_bind_param (Some "00Zz"%string)
      = process_bind_param (Some (lower (base36encode (1295 mod 2 ^ 128))))).
Proof.
  apply (public_id_normalised "00Zz" 1295).
  - discriminate.
  - vm_compute. reflexivity.
Defined.

(** X15: on every input [int128_to_b36] either gives [None] (the input
    is [None] or empty), fails its assertion (the length is not 16), or
    renders one number: the two 64-bit words put together are the value
    of the 16 bytes read as one big-endian number; [struct.unpack] never
    fails. *)
Theorem int128_to_b36_value (int128 : option bytes) :
  int128_to_b36 int128
  = match int128 with
    | None => Return None
    | Some s =>
        if decide (s = []) then Return None
        else if decide (length s = 16%nat)
             then Return (Some (lower (base36encode (be_to_Z s))))
             else Raise AssertionError
    end.
Proof.
  destruct int128 as [s|]; [|reflexivity].
  destruct (decide (s = [])) as [->|Hne]; [reflexivity|].
  destruct (decide (length s = 16%nat)) as [Hlen|Hlen].
  - rewrite int128_to_b36_16 by exact Hlen.
    destruct (words_value s Hlen) as [-> _]. reflexivity.
  - destruct s as [|b s]; [congruence|]. unfold int128_to_b36.
    destruct (Nat.eqb_spec (length (b :: s)) 16); [contradiction|].
    reflexivity.
Qed.

(** X16: [b36_to_bin] raises only what the decoder raises; for every
    value [v] the decoder gives, it returns exactly 16 bytes, those of
    [v] modulo [2 ^ 128]: [struct.pack] never fails. *)
Theorem b36_to_bin_total (b36_string : string) :
  match base36decode b36_string with
  | Raise e => b36_to_bin b36_string = Raise e
  | Return v =>
      exists bs,
        b36_to_bin b36_string = Return bs
        /\ length bs = 16%nat
        /\ be_to_Z bs = v mod 2 ^ 128
  end.
Proof.
  destruct (base36decode b36_string) as [v|e] eqn:E.
  - exists (bytes_of (v mod 2 ^ 128)). split; [|split].
    + apply b36_to_bin_value, E.
    + apply length_Z_to_be.
    + unfold bytes_of. rewrite be_to_Z_to_be.
      change (256 ^ Z.of_nat 16) with (2 ^ 128). apply Z.mod_mod. lia.
  - unfold b36_to_bin. rewrite E. reflexivity.
Qed.

Example normalised_00Zz :
  (bs ← process_bind_param (Some "00Zz"%string); process_result_value bs)
  = Return (Some "zz"%string).
Proof. vm_compute. reflexivity. Qed.

End Base36UIDFacts.

Module SessionFacts.
Import Mutable MutableFacts Session.

Lemma notified_snoc {C} (initial c : C) (t : tracked C) :
  notified initial (Tracked c (changes t ++ [c])) = c.
Proof. unfold notified. simpl. rewrite last_snoc. reflexivity. Qed.

(** One call keeps the ORM's view and the content together, unless it
    is an [extend] whose iterable raises. *)
Lemma list_invoke_notified {V} `{EqDecision V}
    (m : MutableList.list_method V) (initial : list V)
    (t : tracked (list V)) :
  MutableList.extend_fails m = false ->
  notified initial t = content t ->
  notified initial (fst (MutableList.list_invoke m t))
  = content (fst (MutableList.list_invoke m t)).
Proof.
  intros Hok Hsync. rewrite list_invoke_eq.
  destruct (MutableList.list_builtin m (content t)) as [c [x|e]] eqn:E;
    simpl.
  - apply notified_snoc.
  - apply list_builtin_atomic in E; [|exact Hok]. subst c.
    rewrite tracked_eta. exact Hsync.
Qed.

(** A call that returns brings the two together again, whatever they
    were. *)
Lemma list_invoke_returns_notified {V} `{EqDecision V}
    (m : MutableList.list_method V) (initial : list V)
    (t t' : tracked (list V)) x :
  MutableList.list_invoke m t = (t', Return x) ->
  notified initial t' = content t'.
Proof.
  rewrite list_invoke_eq.
  destruct (MutableList.list_builtin m (content t)) as [c [y|e]];
    intros Hm; [|discriminate].
  injection Hm as <- _. apply notified_snoc.
Qed.

Lemma list_invoke_changes {V} `{EqDecision V}
    (m : MutableList.list_method V) (t : tracked (list V)) :
  length (changes (fst (MutableList.list_invoke m t)))
  = match snd (MutableList.list_invoke m t) with
    | Return _ => S (length (changes t))
    | Raise _ => length (changes t)
    end.
Proof.
  rewrite list_invoke_eq.
  destruct (MutableList.list_builtin m (content t)) as [c [x|e]]; simpl;
    [|reflexivity].
  rewrite length_app. simpl. lia.
Qed.

Lemma list_session_cons {V} `{EqDecision V}
    (m : MutableList.list_method V) calls (t : tracked (list V)) :
  list_session (m :: calls) t
  = list_session calls (fst (MutableList.list_invoke m t)).
Proof. reflexivity. Qed.

(** After an [extend] whose iterable raised, the list holds items the
    ORM was not told of. *)
Example failed_extend_not_notified :
  content (list_session
             [MutableList.Extend (Iterable [2; 3] (Some ValueError))]
             (Tracked [1] []))
  = [1; 2; 3]
  /\ notified [1]
       (list_session
          [MutableList.Extend (Iterable [2; 3] (Some ValueError))]
          (Tracked [1] []))
     = [1].
Proof. split; reflexivity. Qed.

Lemma list_session_app {V} `{EqDecision V}
    (calls1 calls2 : list (MutableList.list_method V))
    (t : tracked (list V)) :
  list_session (calls1 ++ calls2) t
  = list_session calls2 (list_session calls1 t).
Proof. apply foldl_app. Qed.

Lemma list_session_keeps_notified {V} `{EqDecision V}
    (calls : list (MutableList.list_method V)) (initial : list V)
    (t : tracked (list V)) :
  Forall (fun m => MutableList.extend_fails m = false) calls ->
  notified initial t = content t ->
  notified initial (list_session calls t) = content (list_session calls t).
Proof.
  intros Hok. revert t.
  induction Hok as [|m calls Hm Hok IH]; intros t Hsync; [exact Hsync|].
  rewrite list_session_cons.
  apply IH, list_invoke_notified; assumption.
Qed.

(** X5: however many methods of a [MutableList] are called, and whether
    they return or raise, there is one notification per call that
    returned.  When no call is an [extend] whose iterable raises, the
    content of the latest notification is the content of the list; and
    so it is when a call returns and no later call is such an
    [extend]. *)
Theorem list_session_notified {V} `{EqDecision V}
    (calls : list (MutableList.list_method V)) (initial : list V) :
  length (changes (list_session calls (Tracked initial [])))
  = list_returns calls (Tracked initial [])
  /\ (Forall (fun m => MutableList.extend_fails m = false) calls ->
      notified initial (list_session calls (Tracked initial []))
      = content (list_session calls (Tracked initial [])))
  /\ (forall pre m post,
        calls = pre ++ m :: post ->
        (exists x,
            snd (MutableList.list_invoke m
                   (list_session pre (Tracked initial [])))
            = Return x) ->
        Forall (fun m => MutableList.extend_fails m = false) post ->
        notified initial (list_session calls (Tracked initial []))
        = content (list_session calls (Tracked initial []))).
Proof.
  split; [|split].
  - assert (Hgen : forall t : tracked (list V),
              length (changes (list_session calls t))
              = (length (changes t) + list_returns calls t)%nat).
    { induction calls as [|m calls IH]; intros t; [simpl; lia|].
      rewrite list_session_cons, IH, list_invoke_changes.
      simpl list_returns.
      destruct (MutableList.list_invoke m t) as [t' [x|e]]; simpl; lia. }
    apply (Hgen (Tracked initial [])).
  - intros Hok. apply list_session_keeps_notified; [exact Hok|reflexivity].
  - intros pre m post -> [x Hx] Hok.
    rewrite list_session_app, list_session_cons.
    apply list_session_keeps_notified; [exact Hok|].
    destruct (MutableList.list_invoke m
                (list_session pre (Tracked initial [])))
      as [t' r] eqn:E.
    simpl in Hx. subst r. simpl.
    eapply list_invoke_returns_notified. exact E.
Qed.

Lemma list_session_notified_witness :
  (length (changes
             (list_session
                [MutableList.Append 4; MutableList.Pop (Some 7);
                 MutableList.Extend (Iterable [5; 6] None);
                 MutableList.SetSlice 0 1 (Iterable [9] (Some ValueError))]
                (Tracked [1] [])))
   = 2%nat
   /\ notified [1]
        (list_session
           [MutableList.Append 4; MutableList.Pop (Some 7);
            MutableList.Extend (Iterable [5; 6] None);
            MutableList.SetSlice 0 1 (Iterable [9] (Some ValueError))]
           (Tracked [1] []))
      = [1; 4; 5; 6])
  /\ notified [1]
       (list_session
          [MutableList.Extend (Iterable [2] (Some ValueError));
           MutableList.Append 3; MutableList.Pop (Some 7)]
          (Tracked [1] []))
     = [1; 2; 3].
Proof.
  split; [split|].
  - apply (proj1 (list_session_notified
                    [MutableList.Append 4; MutableList.Pop (Some 7);
                     MutableList.Extend (Iterable [5; 6] None);
                     MutableList.SetSlice 0 1
                       (Iterable [9] (Some ValueError))]
                    [1])).
  - rewrite (proj1 (proj2 (list_session_notified
                      [MutableList.Append 4; MutableList.Pop (Some 7);
                       MutableList.Extend (Iterable [5; 6] None);
                       MutableList.SetSlice 0 1
                         (Iterable [9] (Some ValueError))]
                      [1])));
      [reflexivity | repeat constructor].
  - rewrite (proj2 (proj2 (list_session_notified
                      [MutableList.Extend (Iterable [2] (Some ValueError));
                       MutableList.Append 3; MutableList.Pop (Some 7)]
                      [1]))
               [MutableList.Extend (Iterable [2] (Some ValueError))]
               (MutableList.Append 3) [MutableList.Pop (Some 7)]);
      [reflexivity | reflexivity | exists None; reflexivity
      | repeat constructor].
Defined.

(** *** [update] *)

Section Update.
Context {K V : Type} `{Countable K}.

Lemma update_items_run (items : list (K * V)) (t : tracked (gmap K V)) :
  exists t',
    MutableDict.update_items items t = (t', Return tt)
    /\ content t' = foldl set_item (content t) items
    /\ length (changes t') = (length (changes t) + length items)%nat
    /\ (forall initial,
          notified initial t = content t -> notified initial t' = content t').
Proof.
  revert t. induction items as [|[k v] items IH]; intros t.
  - exists t. repeat split; [simpl; lia | auto].
  - simpl MutableDict.update_items.
    unfold mbind at 1, call_mbind at 1, call_bind at 1.
    unfold MutableDict.__setitem__. rewrite super_then_changed.
    unfold dict_setitem.
    destruct (IH (Tracked (<[k:=v]> (content t))
                    (changes t ++ [<[k:=v]> (content t)])))
      as (t' & Hrun & Hcontent & Hlen & Hn).
    exists t'. split; [exact Hrun|]. split; [exact Hcontent|]. split.
    + rewrite Hlen. simpl. rewrite length_app. simpl. lia.
    + intros initial _. apply Hn, notified_snoc.
Qed.

Lemma foldl_set_item (items : list (K * V)) (m : gmap K V) :
  NoDup items.*1 -> foldl set_item m items = list_to_map items ∪ m.
Proof.
  revert m. induction items as [|[k v] items IH]; intros m Hnd.
  - simpl. rewrite (left_id_L ∅ (∪)). reflexivity.
  - rewrite fmap_cons in Hnd. apply NoDup_cons in Hnd as [Hk Hnd].
    simpl. rewrite IH by exact Hnd. unfold set_item. simpl.
    rewrite <- insert_union_l.
    rewrite insert_union_r by (apply not_elem_of_list_to_map_1, Hk).
    reflexivity.
Qed.

(** [update] first makes a dictionary of its arguments, and stops there
    when that raises. *)
Lemma update_eq (args : list (positional K V)) (kwargs : gmap K V)
    (t : tracked (gmap K V)) :
  MutableDict.update args kwargs t
  = match dict_new args kwargs with
    | Return other => MutableDict.update_items (map_to_list other) t
    | Raise e => (t, Raise e)
    end.
Proof.
  unfold MutableDict.update, lift, mbind, call_mbind, call_bind.
  destruct (dict_new args kwargs); reflexivity.
Qed.

Lemma update_items_merges (other : gmap K V) (t : tracked (gmap K V)) :
  snd (MutableDict.update_items (map_to_list other) t) = Return tt
  /\ content (fst (MutableDict.update_items (map_to_list other) t))
     = other ∪ content t
  /\ length (changes (fst (MutableDict.update_items (map_to_list other) t)))
     = (length (changes t) + size other)%nat.
Proof.
  destruct (update_items_run (map_to_list other) t)
    as (t' & -> & Hcontent & Hlen & _). simpl.
  split; [reflexivity|]. split.
  - rewrite Hcontent, foldl_set_item by apply NoDup_fst_map_to_list.
    rewrite list_to_map_to_list. reflexivity.
  - rewrite Hlen, length_map_to_list. reflexivity.
Qed.



Example update_wrong_length_item :
  MutableDict.update
    [Elements (Iterable [Pair "a"%string 1; WrongLength] None)] ∅
    (Tracked ({[ "b"%string := 2 ]} : gmap string Z) [])
  = (Tracked {[ "b"%string := 2 ]} [], Raise ValueError).
Proof. reflexivity. Qed.

(** X7: the state taken from a [MutableDict] by [__getstate__] and given
    by [__setstate__] to one that is new and empty, or that holds some
    of the same items already, leaves it with the content of the
    first. *)
Theorem getstate_setstate (t o : tracked (gmap K V)) :
  content o ⊆ content t ->
  snd (MutableDictState.__setstate__ (MutableDictState.__getstate__ t) o)
  = Return tt
  /\ content
       (fst (MutableDictState.__setstate__
               (MutableDictState.__getstate__ t) o))
     = content t.
Proof.
  intros Hsub.
  unfold MutableDictState.__setstate__, MutableDictState.__getstate__.
  rewrite update_eq. simpl dict_new. rewrite (left_id_L ∅ (∪)).
  destruct (update_items_merges (content t) o) as (-> & -> & _).
  split; [reflexivity|].
  apply map_eq. intros k.
  rewrite lookup_union.
  destruct (content t !! k) as [v|] eqn:Et; simpl.
  - destruct (content o !! k); reflexivity.
  - destruct (content o !! k) as [w|] eqn:Eo; [|reflexivity].
    rewrite map_subseteq_spec in Hsub. apply Hsub in Eo. congruence.
Qed.

Lemma dict_run_notified (c : dict_call K V) (initial : gmap K V)
    (t : tracked (gmap K V)) :
  notified initial t = content t ->
  notified initial (fst (dict_run c t)) = content (fst (dict_run c t)).
Proof.
  intros Hsync. destruct c as [m|args kwargs]; simpl.
  - rewrite dict_invoke_eq.
    destruct (MutableDict.dict_builtin m (content t)) as [c [x|e]] eqn:E;
      simpl.
    + apply notified_snoc.
    + apply dict_builtin_atomic in E. subst c.
      rewrite tracked_eta. exact Hsync.
  - rewrite update_eq.
    destruct (dict_new args kwargs) as [other|e]; [|exact Hsync].
    destruct (update_items_run (map_to_list other) t)
      as (t' & -> & _ & _ & Hn).
    apply Hn, Hsync.
Qed.

(** X8: however many times items of a [MutableDict] are set or deleted
    and [update] is called, and whether the calls return or raise, the
    content of the latest notification is the content of the
    dictionary. *)
Theorem dict_session_notified (calls : list (dict_call K V))
    (initial : gmap K V) :
  notified initial (dict_session calls (Tracked initial []))
  = content (dict_session calls (Tracked initial [])).
Proof.
  assert (Hgen : forall t : tracked (gmap K V),
            notified initial t = content t ->
            notified initial (dict_session calls t)
            = content (dict_session calls t)).
  { induction calls as [|c calls IH]; intros t Hsync; [exact Hsync|].
    change (dict_session (c :: calls) t)
      with (dict_session calls (fst (dict_run c t))).
    apply IH, dict_run_notified, Hsync. }
  apply (Hgen (Tracked initial [])). reflexivity.
Qed.

End Update.

Lemma getstate_setstate_witness :
  snd (MutableDictState.__setstate__
         (MutableDictState.__getstate__
            (Tracked ({[ "a"%string := 1 ]} : gmap string Z) []))
         (Tracked ∅ []))
  = Return tt
  /\ content
       (fst (MutableDictState.__setstate__
               (MutableDictState.__getstate__
                  (Tracked ({[ "a"%string := 1 ]} : gmap string Z) []))
               (Tracked ∅ [])))
     = {[ "a"%string := 1 ]}.
Proof.
  exact (getstate_setstate
           (Tracked ({[ "a"%string := 1 ]} : gmap string Z) [])
           (Tracked ∅ []) (map_empty_subseteq _)).
Defined.

End SessionFacts.

Module QueryCountsFacts.
Import QueryCounts.

Section Counts.
Context {Conn : Type} `{Countable Conn}.
Implicit Types (st : state Conn) (conn : Conn).
Implicit Types (events : list (engine_event Conn)).

Lemma get_count_execute conn conn' st :
  get_count conn' (before_cursor_execute conn st)
  = if decide (conn = conn') then get_count conn' st + 1
    else get_count conn' st.
Proof.
  unfold before_cursor_execute, get_count.
  destruct (decide (conn = conn')) as [<-|Hne].
  - destruct (query_counts st !! conn); simpl;
      rewrite lookup_insert_eq; reflexivity.
  - destruct (query_counts st !! conn); simpl;
      rewrite lookup_insert_ne by exact Hne; reflexivity.
Qed.

Lemma query_counts_commit conn st :
  query_counts (before_commit conn st) = query_counts st.
Proof.
  unfold before_commit.
  destruct (MAX_SANE_QUERIES_PER_SESSION <? get_count conn st); reflexivity.
Qed.

Lemma get_count_commit conn conn' st :
  get_count conn' (before_commit conn st) = get_count conn' st.
Proof. unfold get_count. rewrite query_counts_commit. reflexivity. Qed.

Lemma run_events_cons e events st :
  run_events (e :: events) st = run_events events (handle st e).
Proof. reflexivity. Qed.

Lemma get_count_run conn events st :
  get_count conn (run_events events st)
  = get_count conn st + Z.of_nat (executes conn events).
Proof.
  revert st. induction events as [|[c|c] events IH]; intros st.
  - simpl. lia.
  - rewrite run_events_cons, IH. simpl handle. rewrite get_count_execute.
    simpl executes. destruct (decide (c = conn)); lia.
  - rewrite run_events_cons, IH. simpl handle. rewrite get_count_commit.
    reflexivity.
Qed.

Lemma warnings_commit conn st :
  warnings (before_commit conn st)
  = warnings st
    ++ (if MAX_SANE_QUERIES_PER_SESSION <? get_count conn st
        then [get_count conn st] else []).
Proof.
  unfold before_commit.
  destruct (MAX_SANE_QUERIES_PER_SESSION <? get_count conn st); simpl;
    [reflexivity | rewrite app_nil_r; reflexivity].
Qed.

(** X9: after any run of statements and commits, the count of a
    connection is the count it had plus the number of statements run on
    it: statements on other connections do not move it and a commit
    does not reset it; and a connection has an entry exactly when it
    had one or a statement ran on it. *)
Theorem count_after_run conn events st :
  get_count conn (run_events events st)
  = get_count conn st + Z.of_nat (executes conn events)
  /\ (is_Some (query_counts (run_events events st) !! conn)
      <-> is_Some (query_counts st !! conn)
          \/ (0 < executes conn events)%nat).
Proof.
  split; [apply get_count_run|].
  revert st. induction events as [|[c|c] events IH]; intros st.
  - simpl. split; [auto | intros [?|?]; [assumption | lia]].
  - rewrite run_events_cons, IH. simpl handle. simpl executes.
    unfold before_cursor_execute.
    destruct (decide (c = conn)) as [->|Hne].
    + destruct (query_counts st !! conn) as [n|] eqn:E; simpl;
        rewrite lookup_insert_eq; split; intros _;
        (left; eexists; reflexivity) || (right; lia).
    + destruct (query_counts st !! c); simpl;
        rewrite lookup_insert_ne by exact Hne; reflexivity.
  - rewrite run_events_cons, IH. simpl handle. rewrite query_counts_commit.
    reflexivity.
Qed.

Lemma warnings_run events st :
  exists logged,
    warnings (run_events events st) = warnings st ++ logged
    /\ Forall (fun n => MAX_SANE_QUERIES_PER_SESSION < n) logged.
Proof.
  revert st. induction events as [|[c|c] events IH]; intros st.
  - exists []. split; [symmetry; apply app_nil_r | constructor].
  - rewrite run_events_cons. destruct (IH (handle st (Execute c)))
      as (logged & -> & Hall).
    exists logged. split; [|exact Hall].
    simpl handle. unfold before_cursor_execute.
    destruct (query_counts st !! c); reflexivity.
  - rewrite run_events_cons. destruct (IH (handle st (Commit c)))
      as (logged & -> & Hall).
    simpl handle. rewrite warnings_commit, <- app_assoc.
    eexists. split; [reflexivity|].
    apply Forall_app. split; [|exact Hall].
    destruct (Z.ltb_spec MAX_SANE_QUERIES_PER_SESSION (get_count c st));
      repeat constructor. assumption.
Qed.

(** X10: every count that a run logs is above 100, and nothing already
    logged is lost; the count logged at a commit is the one the
    connection has then; and a connection whose count is above 100 is
    warned about at every later commit, whatever runs in between:
    nothing brings a count down. *)
Theorem warnings_above_limit conn events st :
  (exists logged,
     warnings (run_events events st) = warnings st ++ logged
     /\ Forall (fun n => 100 < n) logged)
  /\ (100 < get_count conn st ->
      warnings (before_commit conn (run_events events st))
      = warnings (run_events events st)
        ++ [get_count conn (run_events events st)]
      /\ get_count conn st <= get_count conn (run_events events st)).
Proof.
  split; [apply warnings_run|].
  intros Habove. rewrite warnings_commit, get_count_run.
  destruct (Z.ltb_spec MAX_SANE_QUERIES_PER_SESSION
              (get_count conn st + Z.of_nat (executes conn events)));
    [split; [reflexivity | lia]|].
  unfold MAX_SANE_QUERIES_PER_SESSION in *. lia.
Qed.

End Counts.

Lemma warnings_above_limit_witness :
  (exists logged,
     warnings (run_events [Execute 2%nat; Commit 1%nat]
                 (State {[ 1%nat := 101 ]} []))
     = warnings (State {[ 1%nat := 101 ]} []) ++ logged
     /\ Forall (fun n => 100 < n) logged)
  /\ warnings (before_commit 1%nat
                 (run_events [Execute 2%nat; Commit 1%nat]
                    (State {[ 1%nat := 101 ]} [])))
     = warnings (run_events [Execute 2%nat; Commit 1%nat]
                   (State {[ 1%nat := 101 ]} []))
       ++ [get_count 1%nat
             (run_events [Execute 2%nat; Commit 1%nat]
                (State {[ 1%nat := 101 ]} []))]
  /\ get_count 1%nat (State {[ 1%nat := 101 ]} [])
     <= get_count 1%nat
          (run_events [Execute 2%nat; Commit 1%nat]
             (State {[ 1%nat := 101 ]} [])).
Proof.
  split.
  - apply (warnings_above_limit 1%nat [Execute 2%nat; Commit 1%nat]
             (State {[ 1%nat := 101 ]} [])).
  - apply (warnings_above_limit 1%nat [Execute 2%nat; Commit 1%nat]
             (State {[ 1%nat := 101 ]} [])).
    reflexivity.
Defined.

Example hundred_statements_no_warning :
  warnings (run_events (replicate 100 (Execute 7%nat) ++ [Commit 7%nat])
              (State ∅ []))
  = [].
Proof. vm_compute. reflexivity. Qed.

Example hundred_and_one_statements_warn :
  warnings (run_events
              (replicate 101 (Execute 7%nat) ++ [Commit 7%nat; Commit 7%nat])
              (State ∅ []))
  = [101; 101].
Proof. vm_compute. reflexivity. Qed.

End QueryCountsFacts.

Module PrefixSelectsFacts.
Import PrefixSelects.

Lemma walk_none (stack : list frame) (n : nat) :
  Forall (fun g => is_sqlalchemy g = false) stack -> walk stack n = None.
Proof.
  intros Hall. induction n as [|i IH]; [reflexivity|]. simpl.
  destruct (stack !! i) as [g|] eqn:E; [|exact IH].
  rewrite Forall_forall in Hall.
  rewrite (Hall g) by (eapply list_elem_of_lookup_2, E). exact IH.
Qed.

(** From an index above the outermost SQLAlchemy frame the walk ends on
    it and takes the frame after it, if there is one. *)
Lemma walk_found (inner : list frame) (lib : frame) (rest : list frame)
    (n : nat) :
  is_sqlalchemy lib = true ->
  Forall (fun g => is_sqlalchemy g = false) rest ->
  (length inner < n <= length (inner ++ lib :: rest))%nat ->
  walk (inner ++ lib :: rest) n = head rest.
Proof.
  intros Hlib Hrest. induction n as [|i IH]; intros Hn; [lia|].
  simpl. rewrite length_app in Hn. simpl in Hn.
  destruct (decide (i = length inner)) as [->|Hne].
  - rewrite list_lookup_middle by reflexivity. rewrite Hlib.
    rewrite length_app. simpl.
    destruct rest as [|f outer]; simpl.
    + destruct (Nat.ltb_spec (length inner + 1) (length inner + 1));
        [lia | reflexivity].
    + destruct (Nat.ltb_spec (length inner + 1)
                  (length inner + S (S (length outer)))); [|lia].
      rewrite lookup_app_r by lia.
      replace (length inner + 1 - length inner)%nat with 1%nat by lia.
      reflexivity.
  - rewrite lookup_app_r by lia.
    destruct (i - length inner)%nat as [|j] eqn:Ej; [lia|]. simpl.
    destruct (rest !! j) as [g|] eqn:E.
    + rewrite Forall_forall in Hrest.
      rewrite (Hrest g) by (eapply list_elem_of_lookup_2, E).
      apply IH. rewrite length_app. simpl. lia.
    + apply lookup_ge_None in E. lia.
Qed.

(** A stack has no SQLAlchemy frame, or an outermost one. *)
Lemma outermost_sqlalchemy (stack : list frame) :
  Forall (fun g => is_sqlalchemy g = false) stack
  \/ exists inner lib rest,
       stack = inner ++ lib :: rest
       /\ is_sqlalchemy lib = true
       /\ Forall (fun g => is_sqlalchemy g = false) rest.
Proof.
  induction stack as [|x stack IH]; [left; constructor|].
  destruct IH as [Hall|(inner & lib & rest & -> & Hlib & Hrest)].
  - destruct (is_sqlalchemy x) eqn:Ex.
    + right. exists [], x, stack. auto.
    + left. constructor; assumption.
  - right. exists (x :: inner), lib, rest. auto.
Qed.

(** X11: the frame named in the comment is the caller of the outermost
    SQLAlchemy frame of the stack: it comes right after a frame whose
    file name contains "sqlalchemy", and neither it nor any frame
    further out does.  There is none exactly when the stack has no such
    frame or ends with one. *)
Theorem call_frame_spec (stack : list frame) (f : frame) :
  (call_frame stack = Some f
   <-> exists inner lib outer,
         stack = inner ++ lib :: f :: outer
         /\ is_sqlalchemy lib = true
         /\ is_sqlalchemy f = false
         /\ Forall (fun g => is_sqlalchemy g = false) outer)
  /\ (call_frame stack = None
      <-> Forall (fun g => is_sqlalchemy g = false) stack
          \/ exists inner lib,
               stack = inner ++ [lib] /\ is_sqlalchemy lib = true).
Proof.
  unfold call_frame. split; split.
  - intros Hwalk.
    destruct (outermost_sqlalchemy stack)
      as [Hall|(inner & lib & rest & -> & Hlib & Hrest)].
    + rewrite walk_none in Hwalk by exact Hall. discriminate.
    + rewrite (walk_found inner lib rest) in Hwalk
        by (try assumption; rewrite length_app; simpl; lia).
      destruct rest as [|f' outer]; [discriminate|].
      injection Hwalk as ->. apply Forall_cons_1 in Hrest as [Hf Houter].
      exists inner, lib, outer. auto.
  - intros (inner & lib & outer & -> & Hlib & Hf & Houter).
    rewrite (walk_found inner lib (f :: outer));
      [reflexivity | exact Hlib | constructor; assumption |].
    rewrite length_app. simpl. lia.
  - intros Hwalk.
    destruct (outermost_sqlalchemy stack)
      as [Hall|(inner & lib & rest & -> & Hlib & Hrest)]; [left; exact Hall|].
    rewrite (walk_found inner lib rest) in Hwalk
      by (try assumption; rewrite length_app; simpl; lia).
    destruct rest; [|discriminate]. right. exists inner, lib. auto.
  - intros [Hall|(inner & lib & -> & Hlib)].
    + apply walk_none, Hall.
    + rewrite (walk_found inner lib []);
        [reflexivity | exact Hlib | constructor |].
      rewrite length_app. simpl. lia.
Qed.

Example comment_names_the_caller :
  comment [Frame "inbox/sqlalchemy_ext/util.py" 52;
           Frame "site-packages/sqlalchemy/sql/compiler.py" 110;
           Frame "site-packages/sqlalchemy/orm/query.py" 2761;
           Frame "inbox/models/message.py" 307;
           Frame "bin/inbox-start" 12]
  = "/* inbox/models/message.py:307 */"%string.
Proof. vm_compute. reflexivity. Qed.

Example comment_without_caller :
  comment [Frame "inbox/util/misc.py" 1]
  = "/* unavailable: */"%string.
Proof. vm_compute. reflexivity. Qed.

End PrefixSelectsFacts.

Module ScanOrderFacts.
Import Scanner ScannerFacts ScanOrder.

Section Weak.
Context {Record : Type}.
Variable key : @column Record.

Lemma sublist_StronglySorted (R : relation Record) (l1 l2 : list Record) :
  l1 `sublist_of` l2 -> StronglySorted R l2 -> StronglySorted R l1.
Proof.
  induction 1 as [|x l1 l2 Hsub IH|x l1 l2 Hsub IH]; intros Hs.
  - constructor.
  - apply StronglySorted_cons in Hs as [Hx Hs].
    apply StronglySorted_cons. split; [|apply IH, Hs].
    rewrite Forall_forall in Hx |- *. intros y Hy.
    apply Hx. eapply elem_of_sublist; eassumption.
  - apply StronglySorted_cons in Hs as [_ Hs]. apply IH, Hs.
Qed.

Lemma insert_by_nondecreasing x l :
  nondecreasing key l -> nondecreasing key (insert_by key x l).
Proof.
  unfold nondecreasing. induction l as [|y l IH]; intros Hs; simpl.
  - repeat constructor.
  - apply StronglySorted_cons in Hs as [Hy Hs].
    destruct (Z.leb_spec (key x) (key y)) as [Hle|Hgt].
    + apply StronglySorted_cons. split.
      * constructor; [exact Hle|].
        eapply Forall_impl; [exact Hy|]. simpl. intros z Hz. lia.
      * apply StronglySorted_cons. split; assumption.
    + apply StronglySorted_cons. split; [|apply IH, Hs].
      rewrite insert_by_perm. constructor; [lia | exact Hy].
Qed.

Lemma order_by_nondecreasing l : nondecreasing key (order_by key l).
Proof.
  induction l as [|x l IH]; [constructor|].
  rewrite order_by_cons. apply insert_by_nondecreasing, IH.
Qed.

Lemma filter_insert_by_weak (P : Record -> Prop)
    `{!forall r, Decision (P r)} x l :
  nondecreasing key l ->
  filter P (insert_by key x l)
  = if decide (P x) then insert_by key x (filter P l) else filter P l.
Proof.
  unfold nondecreasing. induction l as [|y l IH]; intros Hs.
  - simpl. rewrite filter_cons, filter_nil.
    destruct (decide (P x)); reflexivity.
  - apply StronglySorted_cons in Hs as [Hy Hs]. simpl.
    destruct (Z.leb_spec (key x) (key y)) as [Hle|Hgt].
    + rewrite filter_cons. destruct (decide (P x)); [|reflexivity].
      symmetry. apply insert_by_head. apply Forall_filter.
      constructor; [exact Hle|].
      eapply Forall_impl; [exact Hy|]. simpl. intros z Hz. lia.
    + rewrite filter_cons, (filter_cons _ y l), IH by exact Hs.
      destruct (decide (P y)), (decide (P x)); try reflexivity.
      simpl. destruct (Z.leb_spec (key x) (key y)); [lia | reflexivity].
Qed.

(** Filtering and ordering commute, whether keys repeat or not. *)
Lemma order_by_filter_weak (P : Record -> Prop)
    `{!forall r, Decision (P r)} l :
  order_by key (filter P l) = filter P (order_by key l).
Proof.
  induction l as [|x l IH]; [reflexivity|].
  rewrite (order_by_cons key x l).
  rewrite filter_insert_by_weak by apply order_by_nondecreasing.
  rewrite filter_cons, <- IH.
  destruct (decide (P x)); reflexivity.
Qed.

(** The rows above a window's last key lie after the window. *)
Lemma above_window (n : nat) l r :
  nondecreasing key l -> last (take n l) = Some r ->
  filter (fun x => key r + 1 <= key x) l
  = filter (fun x => key r + 1 <= key x) (drop n l).
Proof.
  intros Hs Hlast. unfold nondecreasing in Hs.
  rewrite <- (take_drop n l) in Hs |- * at 1.
  apply last_Some in Hlast as [pre Hpre]. rewrite Hpre in Hs |- *.
  rewrite filter_app.
  apply StronglySorted_app in Hs as (_ & Hleft & _).
  apply StronglySorted_app in Hleft as (Hbelow & _ & _).
  rewrite filter_none; [reflexivity|].
  apply Forall_app. split.
  - apply Forall_forall. intros x Hx.
    assert (key x <= key r); [|lia].
    apply Hbelow; [exact Hx | constructor].
  - repeat constructor. lia.
Qed.

End Weak.

Section Loop.
Context {Record : Type}.
Variable id : Record -> Z.

Lemma scan_loop_at_most_once (query : list Record) (id_field : column)
    (count : nat) :
  (0 < count)%nat ->
  (forall r, r ∈ query -> id r = id_field r) ->
  forall fuel cur_id,
    yielded (trace (scan_loop id fuel query id_field count cur_id))
    `sublist_of`
      order_by id_field (filter (fun r => cur_id <= id_field r) query)
    /\ ((length (filter (fun r => (cur_id <= id_field r)%Z) query)
         < fuel)%nat ->
        returned (scan_loop id fuel query id_field count cur_id) = true)
    /\ Forall (Z.le cur_id)
         (cursors (trace (scan_loop id fuel query id_field count cur_id)))
    /\ StronglySorted Z.lt
         (cursors (trace (scan_loop id fuel query id_field count cur_id))).
Proof.
  intros Hcount Hid. induction fuel as [|fuel IH]; intros cur_id.
  { simpl. repeat split; try constructor. { apply sublist_nil_l. } lia. }
  simpl. unfold fetch.
  set (rows := order_by id_field
                 (filter (fun r => cur_id <= id_field r) query)).
  assert (Hlen : length rows
                 = length (filter (fun r => cur_id <= id_field r) query))
    by (unfold rows; rewrite order_by_perm; reflexivity).
  rewrite <- Hlen.
  destruct (advance id (take count rows)) as [next|] eqn:Hadv; simpl.
  - apply advance_Some in Hadv as (r & Hlast & ->).
    assert (Hr : r ∈ rows).
    { apply last_Some_elem_of in Hlast.
      apply (subseteq_take count rows), Hlast. }
    assert (Hrq : r ∈ query /\ cur_id <= id_field r).
    { unfold rows in Hr. rewrite order_by_perm in Hr.
      apply list_elem_of_filter in Hr. tauto. }
    destruct Hrq as [Hrq Hcur]. rewrite (Hid r Hrq).
    destruct (IH (id_field r + 1)) as (Hsub & Hret & Hge & Hsorted).
    assert (Hnext : order_by id_field
                      (filter (fun x => id_field r + 1 <= id_field x) query)
                    = filter (fun x => id_field r + 1 <= id_field x)
                        (drop count rows)).
    { rewrite order_by_filter_weak.
      rewrite <- (above_window id_field count rows r);
        [|apply order_by_nondecreasing | exact Hlast].
      unfold rows. rewrite order_by_filter_weak.
      rewrite list_filter_filter_l; [reflexivity|].
      intros x Hx. lia. }
    assert (Hdrop : (length (drop count rows) < length rows)%nat).
    { rewrite length_drop. destruct rows; [inversion Hr|]. simpl. lia. }
    rewrite Hnext in Hsub.
    assert (Hlen' : (length (filter (fun x => (id_field r + 1
                                               <= id_field x)%Z) query)
                     <= length (drop count rows))%nat).
    { rewrite <- (Permutation_length
                    (order_by_perm id_field
                       (filter (fun x => id_field r + 1 <= id_field x)
                          query))).
      rewrite Hnext. apply length_filter. }
    split; [|split; [|split]].
    + rewrite yielded_app, yielded_Yield.
      rewrite <- (take_drop count rows) at 2.
      apply sublist_app; [reflexivity|].
      etransitivity; [exact Hsub | apply sublist_filter].
    + intros Hfuel. apply Hret. lia.
    + rewrite cursors_app, cursors_Yield. simpl.
      constructor; [lia|].
      eapply Forall_impl; [exact Hge|]. simpl. intros z Hz. lia.
    + rewrite cursors_app, cursors_Yield. simpl.
      apply StronglySorted_cons. split; [|exact Hsorted].
      eapply Forall_impl; [exact Hge|]. simpl. intros z Hz. lia.
  - split; [apply sublist_nil_l|]. split; [reflexivity|].
    split; repeat constructor. lia.
Qed.

(** X12: when the column is the rows' [id] and the window is positive,
    the scan returns even if rows share keys; no row is yielded more
    often than the table holds it at or above [start_id]; the rows come
    in ascending order of the key; and the cursor grows with every
    query. *)
Theorem scan_at_most_once (query : list Record) (id_field : column)
    (start_id : Z) (count fuel : nat) :
  (0 < count)%nat ->
  (forall r, r ∈ query -> id r = id_field r) ->
  (length query < fuel)%nat ->
  returned (safer_yield_per id fuel query id_field start_id count) = true
  /\ yielded (trace (safer_yield_per id fuel query id_field start_id count))
     ⊆+ filter (fun r => start_id <= id_field r) query
  /\ nondecreasing id_field
       (yielded
          (trace (safer_yield_per id fuel query id_field start_id count)))
  /\ StronglySorted Z.lt
       (cursors
          (trace (safer_yield_per id fuel query id_field start_id count))).
Proof.
  intros Hcount Hid Hfuel. unfold safer_yield_per.
  destruct (scan_loop_at_most_once query id_field count Hcount Hid
              fuel start_id) as (Hsub & Hret & _ & Hsorted).
  split; [|split; [|split]].
  - apply Hret.
    pose proof (length_filter (fun r => start_id <= id_field r) query). lia.
  - rewrite <- (order_by_perm id_field
                  (filter (fun r => start_id <= id_field r) query)).
    apply sublist_submseteq, Hsub.
  - eapply sublist_StronglySorted; [exact Hsub|].
    apply order_by_nondecreasing.
  - exact Hsorted.
Qed.

(** *** Any column *)

Lemma scan_loop_shape (query : list Record) (id_field : column)
    (count fuel : nat) (cur_id : Z) :
  yielded (trace (scan_loop id fuel query id_field count cur_id))
  = concat (batches (trace (scan_loop id fuel query id_field count cur_id)))
  /\ Forall (fun r => r ∈ query)
       (yielded (trace (scan_loop id fuel query id_field count cur_id)))
  /\ exists full,
       Forall (fun b => b <> []) full
       /\ batches (trace (scan_loop id fuel query id_field count cur_id))
          = full
            ++ (if returned (scan_loop id fuel query id_field count cur_id)
                then [[]] else []).
Proof.
  revert cur_id. induction fuel as [|fuel IH]; intros cur_id.
  { simpl. repeat split; [constructor|]. exists []. split; constructor. }
  simpl.
  assert (Hin : Forall (fun r => r ∈ query)
                  (fetch query id_field cur_id count)).
  { apply Forall_forall. intros r Hr. unfold fetch in Hr.
    apply (subseteq_take count) in Hr. rewrite order_by_perm in Hr.
    apply list_elem_of_filter in Hr. tauto. }
  destruct (advance id (fetch query id_field cur_id count)) as [next|]
    eqn:Hadv; simpl.
  - destruct (IH next) as (Hcat & Hall & full & Hfull & Hb).
    rewrite yielded_app, yielded_Yield, batches_app, batches_Yield. simpl.
    split; [rewrite Hcat; reflexivity|].
    split; [apply Forall_app; split; assumption|].
    exists (fetch query id_field cur_id count :: full). split.
    + constructor; [|exact Hfull]. intros Hnil.
      rewrite Hnil in Hadv. discriminate.
    + rewrite Hb. reflexivity.
  - apply advance_None in Hadv. rewrite Hadv. simpl.
    repeat split; [constructor|]. exists []. split; constructor.
Qed.

(** X13: whatever the column, the rows yielded are the rows fetched, in
    the order of the queries and at most [count] per query, and all are
    rows of the table; every query finds rows but the one that ends the
    scan, which finds none; and with a window of 0 the scan ends on its
    first query. *)
Theorem scan_any_column (query : list Record) (id_field : column)
    (start_id : Z) (count fuel : nat) :
  yielded (trace (safer_yield_per id fuel query id_field start_id count))
  = concat
      (batches (trace (safer_yield_per id fuel query id_field start_id count)))
  /\ Forall (fun b => (length b <= count)%nat)
       (batches
          (trace (safer_yield_per id fuel query id_field start_id count)))
  /\ Forall (fun r => r ∈ query)
       (yielded
          (trace (safer_yield_per id fuel query id_field start_id count)))
  /\ (exists full,
        Forall (fun b => b <> []) full
        /\ batches
             (trace (safer_yield_per id fuel query id_field start_id count))
           = full
             ++ (if returned
                      (safer_yield_per id fuel query id_field start_id count)
                 then [[]] else []))
  /\ safer_yield_per id (S fuel) query id_field start_id 0
     = Run [Fetch start_id []] true.
Proof.
  unfold safer_yield_per.
  destruct (scan_loop_shape query id_field count fuel start_id)
    as (Hcat & Hall & Hends).
  split; [exact Hcat|]. split; [apply scan_loop_batches|].
  split; [exact Hall|]. split; [exact Hends|]. reflexivity.
Qed.

End Loop.

(** Two rows with one [id], and one above. *)
Lemma scan_at_most_once_witness :
  returned (safer_yield_per row_id 4 [Row 1 0; Row 1 1; Row 2 0] row_id 1 1)
  = true
  /\ yielded
       (trace (safer_yield_per row_id 4 [Row 1 0; Row 1 1; Row 2 0]
                 row_id 1 1))
     ⊆+ filter (fun r => 1 <= row_id r) [Row 1 0; Row 1 1; Row 2 0]
  /\ nondecreasing row_id
       (yielded
          (trace (safer_yield_per row_id 4 [Row 1 0; Row 1 1; Row 2 0]
                    row_id 1 1)))
  /\ StronglySorted Z.lt
       (cursors
          (trace (safer_yield_per row_id 4 [Row 1 0; Row 1 1; Row 2 0]
                    row_id 1 1))).
Proof.
  apply (scan_at_most_once row_id [Row 1 0; Row 1 1; Row 2 0] row_id 1 1 4).
  - lia.
  - reflexivity.
  - simpl. lia.
Defined.

Example shared_key_skipped :
  yielded
    (trace (safer_yield_per row_id 4 [Row 1 0; Row 1 1; Row 2 0] row_id 1 1))
  = [Row 1 0; Row 2 0].
Proof. vm_compute. reflexivity. Qed.

End ScanOrderFacts.

Module JSONFacts.
Import JSON.

Section Json.
Context {V : Type}.
Variable dumps : option V -> result string.
Variable loads : string -> result (option V).

(** X14: reading the column never raises [ValueError]: text that is
    not empty and on which [loads] raises [ValueError] is logged, once,
    and read as [None], and nothing else is logged; NULL and the empty
    text are read as [None] without a log entry; text that decodes is
    read as what it decodes to, and another exception of [loads] is
    passed on, both without a log entry.  And a value is read back as it
    was bound whenever it is [None], or its text is not empty and
    decodes to it. *)
Theorem json_column (value : option V) (text : option string) :
  fst (process_result_value loads text) <> Raise ValueError
  /\ (forall s,
        text = Some s -> s <> ""%string -> loads s = Raise ValueError ->
        process_result_value loads text = (Return None, [s]))
  /\ (snd (process_result_value loads text) <> [] ->
      fst (process_result_value loads text) = Return None
      /\ exists s, text = Some s /\ loads s = Raise ValueError
                   /\ snd (process_result_value loads text) = [s])
  /\ (text = None \/ text = Some ""%string ->
      process_result_value loads text = (Return None, []))
  /\ (forall s v,
        text = Some s -> s <> ""%string -> loads s = Return v ->
        process_result_value loads text = (Return v, []))
  /\ (forall s e,
        text = Some s -> s <> ""%string -> loads s = Raise e ->
        e <> ValueError ->
        process_result_value loads text = (Raise e, []))
  /\ (forall bound,
        process_bind_param dumps value = Return bound ->
        bound = None
        \/ (exists s, bound = Some s /\ s <> ""%string
                      /\ loads s = Return value) ->
        process_result_value loads bound = (Return value, [])).
Proof.
  split; [|split; [|split; [|split; [|split; [|split]]]]].
  - destruct text as [[|c s]|]; simpl; try discriminate.
    destruct (loads (String c s)) as [v|[]]; simpl; discriminate.
  - intros s -> Hne Hloads. destruct s as [|c s]; [congruence|].
    simpl. rewrite Hloads. reflexivity.
  - destruct text as [[|c s]|]; simpl; try congruence.
    destruct (loads (String c s)) as [v|[]] eqn:E; simpl; try congruence.
    intros _. split; [reflexivity|]. exists (String c s). auto.
  - intros [->| ->]; reflexivity.
  - intros s v -> Hne Hloads. destruct s as [|c s]; [congruence|].
    simpl. rewrite Hloads. reflexivity.
  - intros s e -> Hne Hloads He. destruct s as [|c s]; [congruence|].
    simpl. rewrite Hloads. destruct e; congruence.
  - intros bound Hbind [->|(s & -> & Hne & Hloads)].
    + destruct value as [v|]; simpl in Hbind.
      * unfold mbind, result_bind, bind in Hbind.
        destruct (dumps (Some v)); discriminate.
      * reflexivity.
    + destruct s as [|c s]; [congruence|]. simpl. rewrite Hloads.
      reflexivity.
Qed.

End Json.

Lemma json_column_witness :
  process_result_value
    (fun s => if String.eqb s "7" then Return (Some 7%nat)
              else Raise ValueError)
    (Some "not json"%string)
  = (Return None, ["not json"%string])
  /\ process_result_value
       (fun s => if String.eqb s "7" then Return (Some 7%nat)
                 else Raise ValueError)
       (Some "7"%string)
     = (Return (Some 7%nat), []).
Proof.
  split.
  - apply (proj1 (proj2 (json_column
                           (fun _ => Return "7"%string)
                           (fun s => if String.eqb s "7"
                                     then Return (Some 7%nat)
                                     else Raise ValueError)
                           None (Some "not json"%string)))
             "not json"%string).
    + reflexivity.
    + discriminate.
    + reflexivity.
  - apply (proj2 (proj2 (proj2 (proj2 (proj2 (proj2
             (json_column
                (fun _ => Return "7"%string)
                (fun s => if String.eqb s "7"
                          then Return (Some 7%nat)
                          else Raise ValueError)
                (Some 7%nat) None))))))).
    + reflexivity.
    + right. exists "7"%string. repeat split. discriminate.
Defined.

End JSONFacts.
